(** * Streaming output reconciliation of [ProtAlignMovies]

    A shallow embedding of [pyworkflow/em/protocol/protocol_align_movies.py]
    (class [ProtAlignMovies]): the output-set loader [_loadOutputSet], the
    item constructor [_createOutputMovie] and the polling procedure
    [_checkNewOutput], together with the properties that the design
    document states about them.

    The protocol object and the part of the project it touches (the done
    list, the sqlite set files, the registered outputs, the relations table
    and the join step) form one record, [World].  Procedures are written in
    a small state monad that also collects the persistent effects in program
    order and carries the one exception the collection contract knows. *)

From Stdlib Require Import ZArith PrimFloat.
From stdpp Require Import gmap strings list.

Open Scope Z_scope.

(** ** Data model *)

(** [Set.STREAM_OPEN] and [Set.STREAM_CLOSED]. *)
Inductive StreamState := STREAM_OPEN | STREAM_CLOSED.

(** The two set classes handed to [_loadOutputSet]. *)
Inductive SetClass := SetOfMovies | SetOfMicrographs.

(** Step status constants of [pyworkflow.protocol.constants].  The
    procedure tests [STATUS_WAITING] and assigns [STATUS_NEW]; every other
    constant is [STATUS_OTHER] with its name. *)
Inductive Status :=
  | STATUS_NEW
  | STATUS_WAITING
  | STATUS_OTHER (name : string).

(** The argument of [_getFrameRange]: ['align'] or ['sum']. *)
Inductive FramePrefix := PrefixAlign | PrefixSum.

Record MovieAlignment := {
  al_first : Z;
  al_last : Z;
  al_xshifts : list Z;
  al_yshifts : list Z;
  al_roi : list Z
}.

Record Movie := {
  objId : Z;
  micName : string;
  fileName : string;
  numberOfFrames : Z;
  alignment : option MovieAlignment
}.

(** A micrograph starts empty ([micSet.ITEM_TYPE()]) and is filled by
    setters, hence the optional fields. *)
Record Micrograph := {
  mic_objId : option Z;
  mic_micName : option string;
  mic_fileName : option string
}.

(** Python sets hold objects of either class. *)
Inductive Item :=
  | IMovie (m : Movie)
  | IMic (m : Micrograph).

Definition item_objId (it : Item) : option Z :=
  match it with
  | IMovie m => Some (objId m)
  | IMic m => mic_objId m
  end.

(** Metadata that [copyInfo] carries from one set to another. *)
Record SetInfo := {
  samplingRate : float;
  acquisition : string
}.

(** A set object; the same record is the image of the set in its file. *)
Record EMSet := {
  setClass : SetClass;
  setFileName : string;
  items : list Item;
  streamState : StreamState;
  setInfo : SetInfo
}.

Inductive RelationKind := RELATION_TRANSFORM | RELATION_SOURCE.

(** A provenance edge from the object held by the attribute [rel_parent] of
    the protocol to the set stored in the file [rel_child]. *)
Record Relation := {
  rel_kind : RelationKind;
  rel_parent : string;
  rel_child : string
}.

(** Protocol parameters (the form of [_defineAlignmentParams]) and the
    overridable hook [_doGenerateOutputMovies], which is [True] in this
    class. *)
Record Params := {
  alignFrame0 : Z;
  alignFrameN : Z;
  sumFrame0 : Z;
  sumFrameN : Z;
  binFactor : float;
  cropOffsetX : Z;
  cropOffsetY : Z;
  cropDimX : Z;
  cropDimY : Z;
  doSaveAveMic : bool;
  doSaveMovie : bool;
  doGenerateOutputMovies : bool
}.

(** The protocol instance and the project state it reads and writes.
    [finished] is [false] while the attribute is absent
    ([getattr(self, 'finished', False)]).  [files] is the working directory
    of the protocol keyed by base name, so [_getPath] is the identity on
    keys. *)
Record World := {
  params : Params;
  inputMovies : SetInfo;
  finished : bool;
  listOfMovies : list Movie;
  streamClosed : bool;
  movieDone : Movie -> bool;
  doneFile : list Z;
  files : gmap string EMSet;
  outputs : gmap string EMSet;
  relations : list Relation;
  joinStep : option Status
}.

Definition set_finished (b : bool) (w : World) : World :=
  {| params := params w; inputMovies := inputMovies w; finished := b;
     listOfMovies := listOfMovies w; streamClosed := streamClosed w;
     movieDone := movieDone w; doneFile := doneFile w; files := files w;
     outputs := outputs w; relations := relations w; joinStep := joinStep w |}.

Definition set_doneFile (l : list Z) (w : World) : World :=
  {| params := params w; inputMovies := inputMovies w; finished := finished w;
     listOfMovies := listOfMovies w; streamClosed := streamClosed w;
     movieDone := movieDone w; doneFile := l; files := files w;
     outputs := outputs w; relations := relations w; joinStep := joinStep w |}.

Definition set_files (f : gmap string EMSet) (w : World) : World :=
  {| params := params w; inputMovies := inputMovies w; finished := finished w;
     listOfMovies := listOfMovies w; streamClosed := streamClosed w;
     movieDone := movieDone w; doneFile := doneFile w; files := f;
     outputs := outputs w; relations := relations w; joinStep := joinStep w |}.

Definition set_outputs (o : gmap string EMSet) (w : World) : World :=
  {| params := params w; inputMovies := inputMovies w; finished := finished w;
     listOfMovies := listOfMovies w; streamClosed := streamClosed w;
     movieDone := movieDone w; doneFile := doneFile w; files := files w;
     outputs := o; relations := relations w; joinStep := joinStep w |}.

Definition set_relations (r : list Relation) (w : World) : World :=
  {| params := params w; inputMovies := inputMovies w; finished := finished w;
     listOfMovies := listOfMovies w; streamClosed := streamClosed w;
     movieDone := movieDone w; doneFile := doneFile w; files := files w;
     outputs := outputs w; relations := r; joinStep := joinStep w |}.

Definition set_joinStep (s : option Status) (w : World) : World :=
  {| params := params w; inputMovies := inputMovies w; finished := finished w;
     listOfMovies := listOfMovies w; streamClosed := streamClosed w;
     movieDone := movieDone w; doneFile := doneFile w; files := files w;
     outputs := outputs w; relations := relations w; joinStep := s |}.

(** ** Effects *)

(** Persistent effects, recorded in program order. *)
Inductive Event :=
  | EvWriteDoneList (ids : list Z)
  | EvAppend (file : string) (id : option Z)
  | EvUpdateOutputSet (name : string) (state : StreamState)
  | EvDefineRelation (r : Relation)
  | EvSetStatus (s : Status).

Inductive Exn := ClosedCollectionError.

Record Out (A : Type) := MkOut {
  val : Exn + A;
  world : World;
  evs : list Event
}.
Arguments MkOut {A} _ _ _.
Arguments val {A} _.
Arguments world {A} _.
Arguments evs {A} _.

Definition M (A : Type) : Type := World -> Out A.

Definition ret {A} (a : A) : M A := fun w => MkOut (inr a) w [].

Definition bind {A B} (k : A -> M B) (m : M A) : M B := fun w =>
  let o := m w in
  match val o with
  | inl e => MkOut (inl e) (world o) (evs o)
  | inr a => let o' := k a (world o) in
             MkOut (val o') (world o') (evs o ++ evs o')
  end.

#[global] Instance M_ret : MRet M := @ret.
#[global] Instance M_bind : MBind M := @bind.

Definition raise {A} (e : Exn) : M A := fun w => MkOut (inl e) w [].
Definition gets {A} (f : World -> A) : M A := fun w => MkOut (inr (f w)) w [].
Definition modify (f : World -> World) : M unit := fun w => MkOut (inr tt) (f w) [].
Definition emit (e : Event) : M unit := fun w => MkOut (inr tt) w [e].

(** [for x in l: acc = body(acc, x)], left to right, stopping at the first
    exception. *)
Fixpoint forEach {A S} (l : list A) (body : S -> A -> M S) (acc : S) : M S :=
  match l with
  | [] => mret acc
  | x :: l' => acc' ← body acc x; forEach l' body acc'
  end.

(** [if c: m]. *)
Definition when (c : bool) (m : M unit) : M unit := if c then m else mret tt.

(** ** Collaborators defined outside this file

    [ProtAlignMovies] inherits from [ProtProcessMovies] and uses the [Set]
    classes of the data layer.  Neither lives in this file; each helper
    below follows the contract that the design document gives for it. *)

(** Modelled from the spec: [_readDoneList], of [ProtProcessMovies]
    ([DoneSet.load]): the identifiers in the persisted log, none when no
    log was written yet. *)
Definition _readDoneList : M (list Z) := gets doneFile.

(** Modelled from the spec: [_writeDoneList], of [ProtProcessMovies]
    ([DoneSet.markDone]): appends the identifiers of the given movies to the
    log. *)
Definition _writeDoneList (movieList : list Movie) : M unit :=
  modify (fun w => set_doneFile (doneFile w ++ map objId movieList) w);;
  emit (EvWriteDoneList (map objId movieList)).

(** Modelled from the spec: [_isMovieDone], of [ProtProcessMovies]: the
    readiness predicate of a work item, decided by the environment. *)
Definition _isMovieDone (w : World) (m : Movie) : bool := movieDone w m.

(** Modelled from the spec: the constructor [SetClass(filename=setFile)] of
    the data layer: a set object bound to [setFile], holding the items
    already stored there; its properties start at the defaults. *)
Definition newSet (cls : SetClass) (setFile : string) : M EMSet :=
  fs ← gets files;
  mret {| setClass := cls; setFileName := setFile;
          items := match fs !! setFile with Some s => items s | None => [] end;
          streamState := STREAM_OPEN;
          setInfo := {| samplingRate := 0%float; acquisition := "" |} |}.

(** Modelled from the spec: [Set.loadAllProperties]: reads the stream state
    and the metadata stored in the file of the set. *)
Definition loadAllProperties (s : EMSet) : M EMSet :=
  fs ← gets files;
  mret match fs !! setFileName s with
       | Some f => {| setClass := setClass s; setFileName := setFileName s;
                      items := items s; streamState := streamState f;
                      setInfo := setInfo f |}
       | None => s
       end.

(** Modelled from the spec: [Set.setStreamState]: the stream-state flag of
    a collection. *)
Definition setStreamState (st : StreamState) (s : EMSet) : EMSet :=
  {| setClass := setClass s; setFileName := setFileName s; items := items s;
     streamState := st; setInfo := setInfo s |}.

(** Modelled from the spec: [Set.enableAppend] ([openOrCreate] on an
    existing collection: "load it and set state to OPEN-for-append"). *)
Definition enableAppend (s : EMSet) : EMSet := setStreamState STREAM_OPEN s.

(** Modelled from the spec: [Set.copyInfo]: the metadata of the source
    collection is copied forward. *)
Definition copyInfo (other : SetInfo) (s : EMSet) : EMSet :=
  {| setClass := setClass s; setFileName := setFileName s; items := items s;
     streamState := streamState s; setInfo := other |}.

(** Modelled from the spec: [setSamplingRate], of the set classes: one of
    the sampling parameters in the metadata of a collection. *)
Definition setSamplingRate (r : float) (s : EMSet) : EMSet :=
  {| setClass := setClass s; setFileName := setFileName s; items := items s;
     streamState := streamState s;
     setInfo := {| samplingRate := r; acquisition := acquisition (setInfo s) |} |}.

(** Modelled from the spec: [Set.append]: "fails with ClosedCollectionError
    if state is CLOSED; otherwise inserts at the end, identifier assigned
    from the artifact (never reassigned)". *)
Definition append (s : EMSet) (it : Item) : M EMSet :=
  match streamState s with
  | STREAM_CLOSED => raise ClosedCollectionError
  | STREAM_OPEN =>
      emit (EvAppend (setFileName s) (item_objId it));;
      mret {| setClass := setClass s; setFileName := setFileName s;
              items := items s ++ [it]; streamState := streamState s;
              setInfo := setInfo s |}
  end.

(** Modelled from the spec: [_updateOutputSet], of [ProtProcessMovies]: sets
    the stream state of the set, stores the set in its file and registers
    it as the output [outputName] of the protocol. *)
Definition _updateOutputSet (outputName : string) (outputSet : EMSet)
    (state : StreamState) : M unit :=
  let outputSet := setStreamState state outputSet in
  modify (fun w => set_files (<[setFileName outputSet := outputSet]> (files w)) w);;
  modify (fun w => set_outputs (<[outputName := outputSet]> (outputs w)) w);;
  emit (EvUpdateOutputSet outputName state).

(** Modelled from the spec: [_defineTransformRelation] and
    [_defineSourceRelation], of [Protocol]: one more edge in the relations
    table; recording it once is left to the call site. *)
Definition defineRelation (k : RelationKind) (parent : string) (child : EMSet) : M unit :=
  let r := {| rel_kind := k; rel_parent := parent; rel_child := setFileName child |} in
  modify (fun w => set_relations (relations w ++ [r]) w);;
  emit (EvDefineRelation r).

Definition _defineTransformRelation : string -> EMSet -> M unit :=
  defineRelation RELATION_TRANSFORM.
Definition _defineSourceRelation : string -> EMSet -> M unit :=
  defineRelation RELATION_SOURCE.

(** Modelled from the spec: [_getFirstJoinStep], of [ProtProcessMovies]: the
    downstream join step, when the protocol has one. *)
Definition _getFirstJoinStep : M (option Status) := gets joinStep.

(** Modelled from the spec: [Step.isWaiting] and [Step.setStatus]: the state
    flag of the join gate, tested and assigned. *)
Definition isWaiting (s : Status) : bool :=
  match s with STATUS_WAITING => true | _ => false end.

Definition setStatus (s : Status) : M unit :=
  modify (set_joinStep (Some s));; emit (EvSetStatus s).

(** Modelled from the spec: [_getPath], of [Protocol]: the path of a file
    of this protocol; see [World]. *)
Definition _getPath (baseName : string) : string := baseName.

(** Modelled from the spec: the item class of the micrograph set and the
    setters of items ([ITEM_TYPE()], [copyObjId], [setMicName],
    [setFileName], [setAlignment], [setRoi]): each assigns one field; the
    identifier of an artifact is the one it was given. *)
Definition ITEM_TYPE : Micrograph :=
  {| mic_objId := None; mic_micName := None; mic_fileName := None |}.

Definition copyObjId (movie : Movie) (mic : Micrograph) : Micrograph :=
  {| mic_objId := Some (objId movie); mic_micName := mic_micName mic;
     mic_fileName := mic_fileName mic |}.

Definition setMicName (n : string) (mic : Micrograph) : Micrograph :=
  {| mic_objId := mic_objId mic; mic_micName := Some n;
     mic_fileName := mic_fileName mic |}.

Definition mic_setFileName (fn : string) (mic : Micrograph) : Micrograph :=
  {| mic_objId := mic_objId mic; mic_micName := mic_micName mic;
     mic_fileName := Some fn |}.

Definition movie_setFileName (fn : string) (m : Movie) : Movie :=
  {| objId := objId m; micName := micName m; fileName := fn;
     numberOfFrames := numberOfFrames m; alignment := alignment m |}.

Definition setAlignment (a : MovieAlignment) (m : Movie) : Movie :=
  {| objId := objId m; micName := micName m; fileName := fileName m;
     numberOfFrames := numberOfFrames m; alignment := Some a |}.

Definition setRoi (r : list Z) (a : MovieAlignment) : MovieAlignment :=
  {| al_first := al_first a; al_last := al_last a; al_xshifts := al_xshifts a;
     al_yshifts := al_yshifts a; al_roi := r |}.

(** ** The protocol *)

(** File-name utilities defined elsewhere: [pwutils.removeBaseExt] and
    [Protocol._getExtraPath]. *)
Class PathUtils := {
  removeBaseExt : string -> string;
  _getExtraPath : string -> string
}.

Section ProtAlignMovies.

Context `{PU : PathUtils}.

(** [createOutputStep]: "Do nothing now, the output should be ready." *)
Definition createOutputStep : M unit := mret tt.

(** [_loadOutputSet]: "Load the output set if it exists or create a new
    one." *)
Definition _loadOutputSet (cls : SetClass) (baseName : string) : M EMSet :=
  let setFile := _getPath baseName in
  pathExists ← gets (fun w => bool_decide (is_Some (files w !! setFile)));
  outputSet ← (if (pathExists : bool) then
                 outputSet ← newSet cls setFile;
                 outputSet ← loadAllProperties outputSet;
                 mret (enableAppend outputSet)
               else
                 outputSet ← newSet cls setFile;
                 mret (setStreamState STREAM_OPEN outputSet));
  inputMovies ← gets inputMovies;
  binFactor ← gets (fun w => binFactor (params w));
  let newSampling := (samplingRate inputMovies * binFactor)%float in
  let outputSet := copyInfo inputMovies outputSet in
  let outputSet := setSamplingRate newSampling outputSet in
  mret outputSet.

(** [getAttributeValue('%sFrame0' % prefix)] and
    [getAttributeValue('%sFrameN' % prefix)]. *)
Definition frame0 (p : Params) (prefix : FramePrefix) : Z :=
  match prefix with PrefixAlign => alignFrame0 p | PrefixSum => sumFrame0 p end.

Definition frameN (p : Params) (prefix : FramePrefix) : Z :=
  match prefix with PrefixAlign => alignFrameN p | PrefixSum => sumFrameN p end.

(** [_getFrameRange]: "(i, f) inital and last frame range". *)
Definition _getFrameRange (p : Params) (n : Z) (prefix : FramePrefix) : Z * Z :=
  let first := 1 + frame0 p prefix in
  let last := n - frameN p prefix in
  (first, last).

(** Hooks "that need to be implemented in subclasses", as this class
    defines them. *)
Definition _getMovieRoot (movie : Movie) : string :=
  removeBaseExt (fileName movie).

Definition _getOutputMovieName (movie : Movie) : string :=
  _getMovieRoot movie +:+ "_aligned_movie.mrcs".

Definition _getOutputMicName (movie : Movie) : string :=
  _getMovieRoot movie +:+ "_aligned_mic.mrc".

Definition _getMovieShifts (movie : Movie) : list Z * list Z := ([], []).

Definition _preprocessOutputMicrograph (mic : Micrograph) (movie : Movie) : Micrograph :=
  mic.

(** [_createOutputMovie]. *)
Definition _createOutputMovie (p : Params) (movie : Movie) : Movie :=
  let alignedMovie := movie in
  let n := numberOfFrames movie in
  let '(first, last) := _getFrameRange p n PrefixAlign in
  let '(alignedMovie, xshifts, yshifts) :=
    if doSaveMovie p then
      let extraMovieFn := _getExtraPath (_getOutputMovieName movie) in
      let alignedMovie := movie_setFileName extraMovieFn alignedMovie in
      let xshifts := replicate (Z.to_nat (last - first + 1)) 0 in
      (alignedMovie, xshifts, xshifts)
    else
      let '(xshifts, yshifts) := _getMovieShifts movie in
      (alignedMovie, xshifts, yshifts) in
  let alignment := {| al_first := first; al_last := last; al_xshifts := xshifts;
                      al_yshifts := yshifts; al_roi := [] |} in
  let alignment := setRoi [cropOffsetX p; cropOffsetY p; cropDimX p; cropDimY p]
                     alignment in
  setAlignment alignment alignedMovie.

(** The micrograph built for one movie in the loop of [_checkNewOutput]. *)
Definition outputMicrograph (movie : Movie) : Micrograph :=
  let mic := ITEM_TYPE in
  let mic := copyObjId movie mic in
  let mic := setMicName (micName movie) mic in
  let extraMicFn := _getExtraPath (_getOutputMicName movie) in
  let mic := mic_setFileName extraMicFn mic in
  _preprocessOutputMicrograph mic movie.

(** The comprehension that selects the newly done movies. *)
Definition newlyDone (w : World) (doneList : list Z) : list Movie :=
  filter (fun m => (objId m ∉ doneList) ∧ _isMovieDone w m) (listOfMovies w).

(** [_checkNewOutput]. *)
Definition _checkNewOutput : M unit :=
  alreadyFinished ← gets finished;
  if (alreadyFinished : bool) then mret tt else (
  doneList ← _readDoneList;
  newDone ← gets (fun w => newlyDone w doneList);
  when (bool_decide (newDone ≠ [])) (_writeDoneList newDone);;
  let firstTime := bool_decide (length doneList = 0%nat) in
  let allDone := (length doneList + length newDone)%nat in
  modify (fun w => set_finished
            (streamClosed w && bool_decide (allDone = length (listOfMovies w))) w);;
  finishedNow ← gets finished;
  let streamMode := if (finishedNow : bool) then STREAM_CLOSED else STREAM_OPEN in
  p ← gets params;
  when (doGenerateOutputMovies p)
    (let suffix := if doSaveMovie p then "_aligned" else "_original" in
     movieSet ← _loadOutputSet SetOfMovies ("movies" +:+ suffix +:+ ".sqlite");
     movieSet ← forEach newDone
       (fun movieSet movie =>
          let newMovie := _createOutputMovie p movie in
          append movieSet (IMovie newMovie)) movieSet;
     _updateOutputSet "outputMovies" movieSet streamMode;;
     when firstTime (_defineTransformRelation "inputMovies" movieSet));;
  when (doSaveAveMic p)
    (micSet ← _loadOutputSet SetOfMicrographs "micrographs.sqlite";
     micSet ← forEach newDone
       (fun micSet movie =>
          let mic := outputMicrograph movie in
          append micSet (IMic mic)) micSet;
     _updateOutputSet "outputMicrographs" micSet streamMode;;
     when firstTime (_defineSourceRelation "inputMovies" micSet));;
  finishedNow ← gets finished;
  when finishedNow
    (outputStep ← _getFirstJoinStep;
     match outputStep with
     | Some s => when (isWaiting s) (setStatus STATUS_NEW)
     | None => mret tt
     end)).

(** *** The three output blocks of [_checkNewOutput], named for the proofs *)

Definition moviesFile (p : Params) : string :=
  "movies" +:+ (if doSaveMovie p then "_aligned" else "_original") +:+ ".sqlite".

Definition micsFile : string := "micrographs.sqlite".

Definition outputMoviesBlock (p : Params) (newDone : list Movie)
    (firstTime : bool) (streamMode : StreamState) : M unit :=
  when (doGenerateOutputMovies p)
    (movieSet ← _loadOutputSet SetOfMovies (moviesFile p);
     movieSet ← forEach newDone
       (fun movieSet movie => append movieSet (IMovie (_createOutputMovie p movie)))
       movieSet;
     _updateOutputSet "outputMovies" movieSet streamMode;;
     when firstTime (_defineTransformRelation "inputMovies" movieSet)).

Definition outputMicsBlock (p : Params) (newDone : list Movie)
    (firstTime : bool) (streamMode : StreamState) : M unit :=
  when (doSaveAveMic p)
    (micSet ← _loadOutputSet SetOfMicrographs micsFile;
     micSet ← forEach newDone
       (fun micSet movie => append micSet (IMic (outputMicrograph movie))) micSet;
     _updateOutputSet "outputMicrographs" micSet streamMode;;
     when firstTime (_defineSourceRelation "inputMovies" micSet)).

Definition unlockBlock : M unit :=
  finishedNow ← gets finished;
  when finishedNow
    (outputStep ← _getFirstJoinStep;
     match outputStep with
     | Some s => when (isWaiting s) (setStatus STATUS_NEW)
     | None => mret tt
     end).

(** *** What one pass computes, in closed form *)

(** The candidates of a pass: [newDone]. *)
Definition candidates (w : World) : list Movie := newlyDone w (doneFile w).

(** The value assigned to [self.finished]. *)
Definition finishedPredicate (w : World) : bool :=
  streamClosed w &&
  bool_decide ((length (doneFile w) + length (candidates w))%nat = length (listOfMovies w)).

Definition streamModeOf (fin : bool) : StreamState :=
  if fin then STREAM_CLOSED else STREAM_OPEN.

Definition firstTimeOf (w : World) : bool := bool_decide (length (doneFile w) = 0%nat).

Definition storedItems (w : World) (file : string) : list Item :=
  match files w !! file with Some s => items s | None => [] end.

Definition outputInfo (w : World) : SetInfo :=
  {| samplingRate := (samplingRate (inputMovies w) * binFactor (params w))%float;
     acquisition := acquisition (inputMovies w) |}.

(** The set returned by [_loadOutputSet]. *)
Definition loadedSet (w : World) (cls : SetClass) (file : string) : EMSet :=
  {| setClass := cls; setFileName := file; items := storedItems w file;
     streamState := STREAM_OPEN; setInfo := outputInfo w |}.

(** The set handed to [_updateOutputSet], as stored. *)
Definition writtenSet (w : World) (cls : SetClass) (file : string)
    (new : list Item) (mode : StreamState) : EMSet :=
  {| setClass := cls; setFileName := file; items := storedItems w file ++ new;
     streamState := mode; setInfo := outputInfo w |}.

Definition storeSet (name : string) (s : EMSet) (w : World) : World :=
  set_outputs (<[name := s]> (outputs w))
    (set_files (<[setFileName s := s]> (files w)) w).

Definition addRelation (k : RelationKind) (file : string) (w : World) : World :=
  set_relations
    (relations w ++ [{| rel_kind := k; rel_parent := "inputMovies"; rel_child := file |}]) w.

Definition markW (nd : list Movie) (w : World) : World :=
  if bool_decide (nd ≠ []) then set_doneFile (doneFile w ++ map objId nd) w else w.

Definition movieItems (p : Params) (nd : list Movie) : list Item :=
  map (fun m => IMovie (_createOutputMovie p m)) nd.

Definition micItems (nd : list Movie) : list Item :=
  map (fun m => IMic (outputMicrograph m)) nd.

Definition moviesW (nd : list Movie) (ft : bool) (mode : StreamState) (w : World) : World :=
  if doGenerateOutputMovies (params w) then
    let w' := storeSet "outputMovies"
                (writtenSet w SetOfMovies (moviesFile (params w))
                   (movieItems (params w) nd) mode) w in
    if ft then addRelation RELATION_TRANSFORM (moviesFile (params w)) w' else w'
  else w.

Definition micsW (nd : list Movie) (ft : bool) (mode : StreamState) (w : World) : World :=
  if doSaveAveMic (params w) then
    let w' := storeSet "outputMicrographs"
                (writtenSet w SetOfMicrographs micsFile (micItems nd) mode) w in
    if ft then addRelation RELATION_SOURCE micsFile w' else w'
  else w.

Definition unlockW (w : World) : World :=
  if finished w then
    match joinStep w with
    | Some STATUS_WAITING => set_joinStep (Some STATUS_NEW) w
    | _ => w
    end
  else w.

(** The world after one call of [_checkNewOutput]. *)
Definition passW (w : World) : World :=
  if finished w then w else
  let nd := candidates w in
  let fin := finishedPredicate w in
  unlockW (micsW nd (firstTimeOf w) (streamModeOf fin)
            (moviesW nd (firstTimeOf w) (streamModeOf fin)
               (set_finished fin (markW nd w)))).

Definition appendEvents (file : string) (its : list Item) : list Event :=
  map (fun it => EvAppend file (item_objId it)) its.

Definition markE (nd : list Movie) : list Event :=
  if bool_decide (nd ≠ []) then [EvWriteDoneList (map objId nd)] else [].

Definition blockE (enabled : bool) (name file : string) (k : RelationKind)
    (its : list Item) (ft : bool) (mode : StreamState) : list Event :=
  if enabled then
    appendEvents file its ++ [EvUpdateOutputSet name mode] ++
    (if ft then [EvDefineRelation {| rel_kind := k; rel_parent := "inputMovies";
                                     rel_child := file |}]
     else [])
  else [].

Definition unlockE (w : World) : list Event :=
  if finished w then
    match joinStep w with
    | Some STATUS_WAITING => [EvSetStatus STATUS_NEW]
    | _ => []
    end
  else [].

(** The events of one call of [_checkNewOutput], in program order. *)
Definition passE (w : World) : list Event :=
  if finished w then [] else
  let nd := candidates w in
  let p := params w in
  let mode := streamModeOf (finishedPredicate w) in
  let ft := firstTimeOf w in
  markE nd ++
  blockE (doGenerateOutputMovies p) "outputMovies" (moviesFile p)
    RELATION_TRANSFORM (movieItems p nd) ft mode ++
  blockE (doSaveAveMic p) "outputMicrographs" micsFile
    RELATION_SOURCE (micItems nd) ft mode ++
  (if finishedPredicate w then
     match joinStep w with
     | Some STATUS_WAITING => [EvSetStatus STATUS_NEW]
     | _ => []
     end
   else []).

(** ** The system around the procedure *)

(** A fresh run: nothing recorded, nothing stored. *)
Definition initial (w : World) : Prop :=
  finished w = false ∧ doneFile w = [] ∧ files w = ∅ ∧ outputs w = ∅ ∧
  relations w = [].

(** What may happen between two calls.  The producer lists more movies,
    closes the stream and completes movies; the scheduler moves the join
    step; a restart drops the in-memory attribute [finished].  The
    parameters, the done list, the set files, the outputs and the relations
    belong to the protocol alone. *)
Definition envStep (w w' : World) : Prop :=
  params w' = params w ∧ doneFile w' = doneFile w ∧ files w' = files w ∧
  outputs w' = outputs w ∧ relations w' = relations w ∧
  (finished w' = finished w ∨ finished w' = false).

(** Work items have unique identifiers. *)
Definition uniqueIds (w : World) : Prop := NoDup (map objId (listOfMovies w)).

(** The worlds a run can be in between calls, when every call is made in a
    world that satisfies [P]. *)
Inductive reachable (P : World -> Prop) : World -> Prop :=
  | reach_initial w : initial w -> reachable P w
  | reach_env w w' : reachable P w -> envStep w w' -> reachable P w'
  | reach_pass w : reachable P w -> P w -> reachable P (world (_checkNewOutput w)).

Definition anyWorld (w : World) : Prop := True.

(** The set files that the stage writes under parameters [p]. *)
Definition writesFile (p : Params) (f : string) : Prop :=
  (doGenerateOutputMovies p = true ∧ f = moviesFile p) ∨
  (doSaveAveMic p = true ∧ f = micsFile).

(** The identifiers of the artifacts stored in a set file. *)
Definition storedIds (w : World) (f : string) : list (option Z) :=
  map item_objId (storedItems w f).


(** Append-before-mark: whenever identifiers are written to the done list,
    each of them was appended before to every set the stage writes. *)
Definition appendBeforeMark (p : Params) (tr : list Event) : Prop :=
  ∀ pre ids post id f,
    tr = pre ++ EvWriteDoneList ids :: post -> id ∈ ids -> writesFile p f ->
    EvAppend f (Some id) ∈ pre.

(** Mark-before-append: whenever an artifact is appended, its identifier was
    written to the done list before. *)
Definition markBeforeAppend (tr : list Event) : Prop :=
  ∀ pre f id post,
    tr = pre ++ EvAppend f id :: post ->
    ∃ ids i, EvWriteDoneList ids ∈ pre ∧ id = Some i ∧ i ∈ ids.

(** Effects that add nothing to a collection or to the done list. *)
Definition addsNothing (e : Event) : bool :=
  match e with
  | EvWriteDoneList _ | EvAppend _ _ => false
  | _ => true
  end.

(** The candidates that a call discovers: it looks for none when it returns
    at once. *)
Definition discovered (w : World) : list Movie :=
  if finished w then [] else candidates w.

(** [n] calls in a row, with nothing happening in between, and their
    effects. *)
Fixpoint passes (n : nat) (w : World) : World :=
  match n with
  | O => w
  | S n' => passes n' (world (_checkNewOutput w))
  end.





(** Between calls, every set file belongs to the stage and holds exactly
    the artifacts of the identifiers in the done list, in the same order;
    a set the stage writes is missing only while the done list is empty. *)
Definition consistent (w : World) : Prop :=
  ∀ f, match files w !! f with
       | Some s => writesFile (params w) f ∧
                   map item_objId (items s) = map Some (doneFile w)
       | None => writesFile (params w) f -> doneFile w = []
       end.


(** The move of the join step from waiting to runnable. *)
Definition unlocked (s : option Status) : option Status :=
  match s with
  | Some STATUS_WAITING => Some STATUS_NEW
  | other => other
  end.

(** *** Validation *)

(** [_validate].  Parameters compare by value. *)
Definition _validate (p : Params) : list string :=
  let errors := [] in
  let errors :=
    if (cropDimX p >? 0) && (cropDimY p <=? 0) ||
       (cropDimY p >? 0) && (cropDimX p <=? 0)
    then errors ++ ["If you give cropDimX, you should also give cropDimY " +:+
                    "and viceversa"]
    else errors in
  let errors :=
    if alignFrame0 p >? sumFrame0 p
    then errors ++ ["You cannot discard from the beginning more frames " +:+
                    "while aligning than when summing"]
    else errors in
  let errors :=
    if alignFrameN p >? sumFrameN p
    then errors ++ ["You cannot discard from the end more frames while " +:+
                    "aligning than when summing"]
    else errors in
  errors.

(** *** Further notions used by the properties *)

(** The number of frames between the two ends of a frame range. *)
Definition framesIn (range : Z * Z) : Z := snd range - fst range + 1.

(** A stored micrograph with identifier, name and file name all set. *)
Definition filledMicrograph (it : Item) : Prop :=
  ∃ mic, it = IMic mic ∧ is_Some (mic_objId mic) ∧ is_Some (mic_micName mic) ∧
         is_Some (mic_fileName mic).

(** A stored movie that carries an alignment with a four-entry region of
    interest. *)
Definition alignedMovieItem (it : Item) : Prop :=
  ∃ m a, it = IMovie m ∧ alignment m = Some a ∧ length (al_roi a) = 4%nat.

(** Every known movie is done. *)
Definition allReady (w : World) : Prop :=
  ∀ m, m ∈ listOfMovies w -> _isMovieDone w m = true.

End ProtAlignMovies.

(** ** Sample worlds *)

Definition examplePaths : PathUtils :=
  {| removeBaseExt := fun name => name;
     _getExtraPath := fun name => "extra/" +:+ name |}.

Definition sampleMovie (i : Z) : Movie :=
  {| objId := i; micName := "mic"; fileName := "movie"; numberOfFrames := 8;
     alignment := None |}.

Definition sampleParams : Params :=
  {| alignFrame0 := 0; alignFrameN := 0; sumFrame0 := 0; sumFrameN := 0;
     binFactor := 2%float; cropOffsetX := 0; cropOffsetY := 0;
     cropDimX := 0; cropDimY := 0; doSaveAveMic := true; doSaveMovie := false;
     doGenerateOutputMovies := true |}.

(** A fresh run that knows the movies [l]; [ready] tells which are done. *)
Definition freshWorld (l : list Movie) (closed : bool) (ready : Movie -> bool) : World :=
  {| params := sampleParams;
     inputMovies := {| samplingRate := 1.5%float; acquisition := "300kV" |};
     finished := false; listOfMovies := l; streamClosed := closed;
     movieDone := ready; doneFile := []; files := ∅; outputs := ∅;
     relations := []; joinStep := Some STATUS_WAITING |}.

(** The producer's step: new list, new stream flag, new readiness. *)
Definition produce (l : list Movie) (closed : bool) (ready : Movie -> bool)
    (w : World) : World :=
  {| params := params w; inputMovies := inputMovies w; finished := finished w;
     listOfMovies := l; streamClosed := closed; movieDone := ready;
     doneFile := doneFile w; files := files w; outputs := outputs w;
     relations := relations w; joinStep := joinStep w |}.

(** One ready movie, stream still open. *)
Definition oneReady : World := freshWorld [sampleMovie 1] false (fun _ => true).

(** One movie, not ready yet. *)
Definition noneReady : World := freshWorld [sampleMovie 1] false (fun _ => false).

(** One ready movie and a closed stream; the first call finishes the run. *)
Definition closedOne : World := freshWorld [sampleMovie 1] true (fun _ => true).

Definition afterClosedOne : World :=
  world (_checkNewOutput (PU := examplePaths) closedOne).

(** After the run finished, a second movie is listed: not ready in
    [lateArrival], ready in [lateReady]. *)
Definition lateArrival : World :=
  produce [sampleMovie 1; sampleMovie 2] true
    (fun m => bool_decide (objId m = 1)) afterClosedOne.


(** The parameters of the streaming workflow test ([alignFrame0=3],
    [alignFrameN=10], [sumFrame0=3], [sumFrameN=10], movies not saved). *)
Definition streamingTestParams : Params :=
  {| alignFrame0 := 3; alignFrameN := 10; sumFrame0 := 3; sumFrameN := 10;
     binFactor := 1%float; cropOffsetX := 0; cropOffsetY := 0;
     cropDimX := 0; cropDimY := 0; doSaveAveMic := true; doSaveMovie := false;
     doGenerateOutputMovies := true |}.

(** The same parameters with the aligned movies saved. *)
Definition savingParams : Params :=
  {| alignFrame0 := 3; alignFrameN := 10; sumFrame0 := 3; sumFrameN := 10;
     binFactor := 1%float; cropOffsetX := 0; cropOffsetY := 0;
     cropDimX := 0; cropDimY := 0; doSaveAveMic := true; doSaveMovie := true;
     doGenerateOutputMovies := true |}.

(** Two ready movies and a closed stream. *)
Definition closedTwo : World :=
  freshWorld [sampleMovie 1; sampleMovie 2] true (fun _ => true).

(** One call with the sample file-name utilities. *)
Abbreviation sampleRun := (_checkNewOutput (PU := examplePaths)).

(** ** Running the procedures *)

Create Rewrite HintDb frame.

Section Running.

Context `{PU : PathUtils}.

Ltac mrun :=
  cbv beta iota zeta delta [mbind M_bind bind mret M_ret ret gets modify emit
                            raise when val world evs].

Lemma bind_run {A B} (m : M A) (k : A -> M B) w a w' e :
  m w = MkOut (inr a) w' e ->
  (m ≫= k) w = MkOut (val (k a w')) (world (k a w')) (e ++ evs (k a w')).
Proof. intros H. unfold mbind, M_bind, bind. rewrite H. reflexivity. Qed.

Lemma out_eta {A} (o : Out A) : MkOut (val o) (world o) (evs o) = o.
Proof. destruct o; reflexivity. Qed.

Lemma _loadOutputSet_run cls file w :
  _loadOutputSet cls file w = MkOut (inr (loadedSet w cls file)) w [].
Proof.
  unfold _loadOutputSet, newSet, loadAllProperties, loadedSet, storedItems, _getPath.
  mrun.
  destruct (files w !! file) as [s|] eqn:E; cbn; rewrite ?E; reflexivity.
Qed.

Lemma forEach_append_run {A} (f : A -> Item) (l : list A) (s : EMSet) w :
  streamState s = STREAM_OPEN ->
  forEach l (fun acc x => append acc (f x)) s w =
  MkOut (inr {| setClass := setClass s; setFileName := setFileName s;
                items := items s ++ map f l; streamState := STREAM_OPEN;
                setInfo := setInfo s |})
        w (appendEvents (setFileName s) (map f l)).
Proof.
  revert s. induction l as [|x l IH]; intros s Hs.
  - cbn. rewrite app_nil_r. destruct s; cbn in *; subst; reflexivity.
  - cbn [forEach].
    erewrite bind_run; last first.
    { unfold append. rewrite Hs. reflexivity. }
    rewrite IH by reflexivity. cbn.
    rewrite <- app_assoc. reflexivity.
Qed.

Lemma _updateOutputSet_run name s mode w :
  _updateOutputSet name s mode w =
  MkOut (inr tt) (storeSet name (setStreamState mode s) w)
        [EvUpdateOutputSet name mode].
Proof. reflexivity. Qed.

Lemma defineRelation_run k s w :
  defineRelation k "inputMovies" s w =
  MkOut (inr tt) (addRelation k (setFileName s) w)
        [EvDefineRelation {| rel_kind := k; rel_parent := "inputMovies";
                             rel_child := setFileName s |}].
Proof. reflexivity. Qed.

(** The body shared by the two output blocks: load, append, update, relate. *)
Lemma outputBlock_run cls file name k (f : Movie -> Item) nd (ft : bool) mode w :
  (outputSet ← _loadOutputSet cls file;
   outputSet ← forEach nd (fun acc movie => append acc (f movie)) outputSet;
   _updateOutputSet name outputSet mode;;
   when ft (defineRelation k "inputMovies" outputSet)) w =
  MkOut (inr tt)
    (let w' := storeSet name (writtenSet w cls file (map f nd) mode) w in
     if ft then addRelation k file w' else w')
    (blockE true name file k (map f nd) ft mode).
Proof.
  erewrite bind_run by apply _loadOutputSet_run.
  erewrite bind_run by (apply forEach_append_run; reflexivity).
  erewrite bind_run by apply _updateOutputSet_run.
  destruct ft; reflexivity.
Qed.

Lemma outputMoviesBlock_run nd ft mode w :
  outputMoviesBlock (params w) nd ft mode w =
  MkOut (inr tt) (moviesW nd ft mode w)
    (blockE (doGenerateOutputMovies (params w)) "outputMovies"
       (moviesFile (params w)) RELATION_TRANSFORM
       (movieItems (params w) nd) ft mode).
Proof.
  unfold outputMoviesBlock, moviesW, _defineTransformRelation.
  destruct (doGenerateOutputMovies (params w)); [|reflexivity].
  unfold when at 1. apply outputBlock_run.
Qed.

Lemma outputMicsBlock_run nd ft mode w :
  outputMicsBlock (params w) nd ft mode w =
  MkOut (inr tt) (micsW nd ft mode w)
    (blockE (doSaveAveMic (params w)) "outputMicrographs" micsFile
       RELATION_SOURCE (micItems nd) ft mode).
Proof.
  unfold outputMicsBlock, micsW, _defineSourceRelation.
  destruct (doSaveAveMic (params w)); [|reflexivity].
  unfold when at 1. apply outputBlock_run.
Qed.

Lemma unlockBlock_run w :
  unlockBlock w = MkOut (inr tt) (unlockW w) (unlockE w).
Proof.
  unfold unlockBlock, unlockW, unlockE, _getFirstJoinStep, setStatus. mrun.
  destruct (finished w).
  - destruct (joinStep w) as [[]|]; reflexivity.
  - reflexivity.
Qed.

Lemma _writeDoneList_run nd w :
  when (bool_decide (nd ≠ [])) (_writeDoneList nd) w =
  MkOut (inr tt) (markW nd w) (markE nd).
Proof.
  unfold markW, markE, _writeDoneList.
  destruct (bool_decide (nd ≠ [])); reflexivity.
Qed.

(** ** Frame lemmas: the fields each step leaves alone *)

Ltac frame :=
  unfold markW, moviesW, micsW, unlockW, storeSet, addRelation;
  repeat case_match; cbn; congruence.

Lemma params_markW nd w : params (markW nd w) = params w.
Proof. frame. Qed.

Lemma inputMovies_markW nd w : inputMovies (markW nd w) = inputMovies w.
Proof. frame. Qed.

Lemma finished_markW nd w : finished (markW nd w) = finished w.
Proof. frame. Qed.

Lemma listOfMovies_markW nd w : listOfMovies (markW nd w) = listOfMovies w.
Proof. frame. Qed.

Lemma streamClosed_markW nd w : streamClosed (markW nd w) = streamClosed w.
Proof. frame. Qed.

Lemma movieDone_markW nd w : movieDone (markW nd w) = movieDone w.
Proof. frame. Qed.

Lemma files_markW nd w : files (markW nd w) = files w.
Proof. frame. Qed.

Lemma outputs_markW nd w : outputs (markW nd w) = outputs w.
Proof. frame. Qed.

Lemma relations_markW nd w : relations (markW nd w) = relations w.
Proof. frame. Qed.

Lemma joinStep_markW nd w : joinStep (markW nd w) = joinStep w.
Proof. frame. Qed.

Lemma params_moviesW nd ft mode w : params (moviesW nd ft mode w) = params w.
Proof. frame. Qed.

Lemma inputMovies_moviesW nd ft mode w : inputMovies (moviesW nd ft mode w) = inputMovies w.
Proof. frame. Qed.

Lemma finished_moviesW nd ft mode w : finished (moviesW nd ft mode w) = finished w.
Proof. frame. Qed.

Lemma listOfMovies_moviesW nd ft mode w : listOfMovies (moviesW nd ft mode w) = listOfMovies w.
Proof. frame. Qed.

Lemma streamClosed_moviesW nd ft mode w : streamClosed (moviesW nd ft mode w) = streamClosed w.
Proof. frame. Qed.

Lemma movieDone_moviesW nd ft mode w : movieDone (moviesW nd ft mode w) = movieDone w.
Proof. frame. Qed.

Lemma doneFile_moviesW nd ft mode w : doneFile (moviesW nd ft mode w) = doneFile w.
Proof. frame. Qed.

Lemma joinStep_moviesW nd ft mode w : joinStep (moviesW nd ft mode w) = joinStep w.
Proof. frame. Qed.

Lemma params_micsW nd ft mode w : params (micsW nd ft mode w) = params w.
Proof. frame. Qed.

Lemma inputMovies_micsW nd ft mode w : inputMovies (micsW nd ft mode w) = inputMovies w.
Proof. frame. Qed.

Lemma finished_micsW nd ft mode w : finished (micsW nd ft mode w) = finished w.
Proof. frame. Qed.

Lemma listOfMovies_micsW nd ft mode w : listOfMovies (micsW nd ft mode w) = listOfMovies w.
Proof. frame. Qed.

Lemma streamClosed_micsW nd ft mode w : streamClosed (micsW nd ft mode w) = streamClosed w.
Proof. frame. Qed.

Lemma movieDone_micsW nd ft mode w : movieDone (micsW nd ft mode w) = movieDone w.
Proof. frame. Qed.

Lemma doneFile_micsW nd ft mode w : doneFile (micsW nd ft mode w) = doneFile w.
Proof. frame. Qed.

Lemma joinStep_micsW nd ft mode w : joinStep (micsW nd ft mode w) = joinStep w.
Proof. frame. Qed.

Lemma params_unlockW  w : params (unlockW w) = params w.
Proof. frame. Qed.

Lemma inputMovies_unlockW  w : inputMovies (unlockW w) = inputMovies w.
Proof. frame. Qed.

Lemma finished_unlockW  w : finished (unlockW w) = finished w.
Proof. frame. Qed.

Lemma listOfMovies_unlockW  w : listOfMovies (unlockW w) = listOfMovies w.
Proof. frame. Qed.

Lemma streamClosed_unlockW  w : streamClosed (unlockW w) = streamClosed w.
Proof. frame. Qed.

Lemma movieDone_unlockW  w : movieDone (unlockW w) = movieDone w.
Proof. frame. Qed.

Lemma doneFile_unlockW  w : doneFile (unlockW w) = doneFile w.
Proof. frame. Qed.

Lemma files_unlockW  w : files (unlockW w) = files w.
Proof. frame. Qed.

Lemma outputs_unlockW  w : outputs (unlockW w) = outputs w.
Proof. frame. Qed.

Lemma relations_unlockW  w : relations (unlockW w) = relations w.
Proof. frame. Qed.

Lemma params_set_finished b w : params (set_finished b w) = params w.
Proof. reflexivity. Qed.

Lemma inputMovies_set_finished b w : inputMovies (set_finished b w) = inputMovies w.
Proof. reflexivity. Qed.

Lemma listOfMovies_set_finished b w : listOfMovies (set_finished b w) = listOfMovies w.
Proof. reflexivity. Qed.

Lemma streamClosed_set_finished b w : streamClosed (set_finished b w) = streamClosed w.
Proof. reflexivity. Qed.

Lemma movieDone_set_finished b w : movieDone (set_finished b w) = movieDone w.
Proof. reflexivity. Qed.

Lemma doneFile_set_finished b w : doneFile (set_finished b w) = doneFile w.
Proof. reflexivity. Qed.

Lemma files_set_finished b w : files (set_finished b w) = files w.
Proof. reflexivity. Qed.

Lemma outputs_set_finished b w : outputs (set_finished b w) = outputs w.
Proof. reflexivity. Qed.

Lemma relations_set_finished b w : relations (set_finished b w) = relations w.
Proof. reflexivity. Qed.

Lemma joinStep_set_finished b w : joinStep (set_finished b w) = joinStep w.
Proof. reflexivity. Qed.

Lemma finished_set_finished b w : finished (set_finished b w) = b.
Proof. reflexivity. Qed.

Lemma doneFile_markW nd w : doneFile (markW nd w) = doneFile w ++ map objId nd.
Proof.
  unfold markW. case_bool_decide as E; [reflexivity|].
  rewrite E. cbn. by rewrite app_nil_r.
Qed.

#[local] Hint Rewrite
  params_set_finished inputMovies_set_finished listOfMovies_set_finished streamClosed_set_finished movieDone_set_finished
  doneFile_set_finished files_set_finished outputs_set_finished relations_set_finished joinStep_set_finished
  params_markW inputMovies_markW finished_markW listOfMovies_markW
  streamClosed_markW movieDone_markW files_markW outputs_markW
  relations_markW joinStep_markW params_moviesW inputMovies_moviesW
  finished_moviesW listOfMovies_moviesW streamClosed_moviesW movieDone_moviesW
  doneFile_moviesW joinStep_moviesW params_micsW inputMovies_micsW
  finished_micsW listOfMovies_micsW streamClosed_micsW movieDone_micsW
  doneFile_micsW joinStep_micsW params_unlockW inputMovies_unlockW
  finished_unlockW listOfMovies_unlockW streamClosed_unlockW movieDone_unlockW
  doneFile_unlockW files_unlockW outputs_unlockW relations_unlockW
  finished_set_finished doneFile_markW
  : frame.

(** [_checkNewOutput] is its three blocks in sequence. *)
Lemma _checkNewOutput_blocks :
  _checkNewOutput =
  (alreadyFinished ← gets finished;
   if (alreadyFinished : bool) then mret tt else (
   doneList ← _readDoneList;
   newDone ← gets (fun w => newlyDone w doneList);
   when (bool_decide (newDone ≠ [])) (_writeDoneList newDone);;
   let firstTime := bool_decide (length doneList = 0%nat) in
   let allDone := (length doneList + length newDone)%nat in
   modify (fun w => set_finished
             (streamClosed w && bool_decide (allDone = length (listOfMovies w))) w);;
   finishedNow ← gets finished;
   let streamMode := if (finishedNow : bool) then STREAM_CLOSED else STREAM_OPEN in
   p ← gets params;
   outputMoviesBlock p newDone firstTime streamMode;;
   outputMicsBlock p newDone firstTime streamMode;;
   unlockBlock)).
Proof. reflexivity. Qed.

(** One call never raises, and its result and effects are [passW] and
    [passE]. *)
Lemma _checkNewOutput_run w :
  _checkNewOutput w = MkOut (inr tt) (passW w) (passE w).
Proof.
  rewrite _checkNewOutput_blocks. unfold passW, passE.
  erewrite bind_run by reflexivity.
  destruct (finished w) eqn:Hf; [reflexivity|].
  erewrite bind_run by reflexivity.
  erewrite bind_run by reflexivity.
  erewrite bind_run by apply _writeDoneList_run.
  erewrite bind_run by reflexivity.
  erewrite bind_run by reflexivity.
  erewrite bind_run by reflexivity.
  fold (candidates w).
  set (nd := candidates w).
  set (w1 := set_finished _ (markW nd w)).
  erewrite bind_run by apply (outputMoviesBlock_run nd _ _ w1).
  rewrite <- (params_moviesW nd (bool_decide (length (doneFile w) = 0%nat))
                (if finished w1 then STREAM_CLOSED else STREAM_OPEN) w1).
  erewrite bind_run by apply outputMicsBlock_run.
  rewrite unlockBlock_run. cbn [val world evs].
  assert (Hfin : finished w1 = finishedPredicate w).
  { subst w1. unfold finishedPredicate. cbn [finished set_finished].
    autorewrite with frame. reflexivity. }
  unfold unlockE. autorewrite with frame.
  rewrite Hfin. fold (firstTimeOf w). fold (streamModeOf (finishedPredicate w)).
  subst w1. cbn [params set_finished]. autorewrite with frame.
  cbn [joinStep set_finished]. autorewrite with frame.
  reflexivity.
Qed.

End Running.

#[global] Hint Rewrite
  @params_set_finished @inputMovies_set_finished @listOfMovies_set_finished @streamClosed_set_finished @movieDone_set_finished
  @doneFile_set_finished @files_set_finished @outputs_set_finished @relations_set_finished @joinStep_set_finished
  @params_markW @inputMovies_markW @finished_markW @listOfMovies_markW
  @streamClosed_markW @movieDone_markW @files_markW @outputs_markW
  @relations_markW @joinStep_markW @params_moviesW @inputMovies_moviesW
  @finished_moviesW @listOfMovies_moviesW @streamClosed_moviesW @movieDone_moviesW
  @doneFile_moviesW @joinStep_moviesW @params_micsW @inputMovies_micsW
  @finished_micsW @listOfMovies_micsW @streamClosed_micsW @movieDone_micsW
  @doneFile_micsW @joinStep_micsW @params_unlockW @inputMovies_unlockW
  @finished_unlockW @listOfMovies_unlockW @streamClosed_unlockW @movieDone_unlockW
  @doneFile_unlockW @files_unlockW @outputs_unlockW @relations_unlockW
  @finished_set_finished @doneFile_markW
  : frame.

(** ** Properties of the procedure *)

Section Properties.

Context `{PU : PathUtils}.

(** *** Where a call stores its sets *)

Lemma moviesFile_ne_micsFile p : moviesFile p ≠ micsFile.
Proof. unfold moviesFile, micsFile. destruct (doSaveMovie p); discriminate. Qed.

Lemma objId_createOutputMovie p m : objId (_createOutputMovie p m) = objId m.
Proof.
  unfold _createOutputMovie, _getFrameRange, _getMovieShifts.
  destruct (doSaveMovie p); reflexivity.
Qed.

Lemma outputMicrograph_identity m :
  mic_objId (outputMicrograph m) = Some (objId m) ∧
  mic_micName (outputMicrograph m) = Some (micName m).
Proof. split; reflexivity. Qed.

Lemma ids_movieItems p nd : map item_objId (movieItems p nd) = map Some (map objId nd).
Proof.
  unfold movieItems. rewrite !map_map. apply map_ext. intros m.
  cbn [item_objId]. f_equal. apply objId_createOutputMovie.
Qed.

Lemma ids_micItems nd : map item_objId (micItems nd) = map Some (map objId nd).
Proof. unfold micItems. rewrite !map_map. reflexivity. Qed.

Lemma storedItems_moviesW nd ft mode w f :
  f ≠ moviesFile (params w) ->
  storedItems (moviesW nd ft mode w) f = storedItems w f.
Proof.
  intros Hne. unfold storedItems, moviesW, storeSet, addRelation.
  repeat case_match; cbn in *; simplify_map_eq; congruence.
Qed.

Lemma outputInfo_moviesW nd ft mode w :
  outputInfo (moviesW nd ft mode w) = outputInfo w.
Proof. unfold outputInfo. autorewrite with frame. reflexivity. Qed.

(** The file [f] after a call that did not return at once. *)
Lemma lookup_files_pass w f :
  finished w = false ->
  files (world (_checkNewOutput w)) !! f =
  if decide (doSaveAveMic (params w) = true ∧ f = micsFile) then
    Some (writtenSet w SetOfMicrographs micsFile (micItems (candidates w))
            (streamModeOf (finishedPredicate w)))
  else if decide (doGenerateOutputMovies (params w) = true ∧ f = moviesFile (params w)) then
    Some (writtenSet w SetOfMovies (moviesFile (params w))
            (movieItems (params w) (candidates w))
            (streamModeOf (finishedPredicate w)))
  else files w !! f.
Proof.
  intros Hf. rewrite _checkNewOutput_run. cbn [world]. unfold passW. rewrite Hf.
  set (nd := candidates w). set (mode := streamModeOf _). set (ft := firstTimeOf w).
  set (w1 := set_finished _ (markW nd w)).
  assert (Hp : params w1 = params w) by (subst w1; cbn; by autorewrite with frame).
  assert (Hfiles : files w1 = files w) by (subst w1; cbn; by autorewrite with frame).
  assert (Hinfo : outputInfo w1 = outputInfo w).
  { subst w1; unfold outputInfo; cbn; by autorewrite with frame. }
  assert (Hst : ∀ g, storedItems w1 g = storedItems w g).
  { intros g. unfold storedItems. by rewrite Hfiles. }
  pose proof (moviesFile_ne_micsFile (params w)) as Hne.
  autorewrite with frame.
  unfold micsW. autorewrite with frame. rewrite Hp.
  unfold writtenSet. rewrite outputInfo_moviesW, Hinfo.
  rewrite storedItems_moviesW by (rewrite Hp; congruence). rewrite Hst.
  unfold moviesW, writtenSet. rewrite Hp, Hinfo, Hst.
  unfold storeSet, addRelation.
  destruct (doSaveAveMic (params w)), (doGenerateOutputMovies (params w)), ft;
    cbn [files addRelation storeSet set_relations set_outputs set_files setFileName];
    rewrite ?Hfiles.
  all: repeat case_decide.
  all: try (exfalso; intuition congruence).
  all: repeat match goal with H : _ ∧ _ |- _ => destruct H end; subst.
  all: rewrite ?lookup_insert_eq; try reflexivity.
  all: rewrite ?lookup_insert_ne by (intuition congruence);
       rewrite ?lookup_insert_eq; try reflexivity.
Qed.

(** *** The other fields after a call *)

Lemma world_pass w : world (_checkNewOutput w) = passW w.
Proof. by rewrite _checkNewOutput_run. Qed.

Lemma evs_pass w : evs (_checkNewOutput w) = passE w.
Proof. by rewrite _checkNewOutput_run. Qed.

Lemma pass_finished w :
  finished w = true -> _checkNewOutput w = MkOut (inr tt) w [].
Proof.
  intros Hf. rewrite _checkNewOutput_run. unfold passW, passE. by rewrite Hf.
Qed.

Lemma doneFile_pass w :
  finished w = false ->
  doneFile (world (_checkNewOutput w)) = doneFile w ++ map objId (candidates w).
Proof.
  intros Hf. rewrite world_pass. unfold passW. rewrite Hf.
  autorewrite with frame. cbn [doneFile set_finished].
  by autorewrite with frame.
Qed.

Lemma finished_pass w :
  finished w = false ->
  finished (world (_checkNewOutput w)) = finishedPredicate w.
Proof.
  intros Hf. rewrite world_pass. unfold passW. rewrite Hf.
  by autorewrite with frame.
Qed.

Lemma joinStep_pass w :
  finished w = false ->
  joinStep (world (_checkNewOutput w)) =
  if finishedPredicate w then unlocked (joinStep w) else joinStep w.
Proof.
  intros Hf. rewrite world_pass. unfold passW. rewrite Hf.
  unfold unlockW at 1. autorewrite with frame.
  cbn [joinStep set_finished]. autorewrite with frame.
  unfold unlocked.
  destruct (finishedPredicate w); [destruct (joinStep w) as [[]|] eqn:E|];
    cbn [joinStep set_joinStep]; autorewrite with frame;
    cbn [joinStep set_finished]; autorewrite with frame; congruence.
Qed.

Lemma params_pass w : params (world (_checkNewOutput w)) = params w.
Proof.
  rewrite world_pass. unfold passW. destruct (finished w); [done|].
  by autorewrite with frame.
Qed.

Lemma inputMovies_pass w : inputMovies (world (_checkNewOutput w)) = inputMovies w.
Proof.
  rewrite world_pass. unfold passW. destruct (finished w); [done|].
  by autorewrite with frame.
Qed.

Lemma listOfMovies_pass w : listOfMovies (world (_checkNewOutput w)) = listOfMovies w.
Proof.
  rewrite world_pass. unfold passW. destruct (finished w); [done|].
  by autorewrite with frame.
Qed.

Lemma streamClosed_pass w : streamClosed (world (_checkNewOutput w)) = streamClosed w.
Proof.
  rewrite world_pass. unfold passW. destruct (finished w); [done|].
  by autorewrite with frame.
Qed.

Lemma movieDone_pass w : movieDone (world (_checkNewOutput w)) = movieDone w.
Proof.
  rewrite world_pass. unfold passW. destruct (finished w); [done|].
  by autorewrite with frame.
Qed.

Lemma outputInfo_pass w : outputInfo (world (_checkNewOutput w)) = outputInfo w.
Proof. unfold outputInfo. by rewrite inputMovies_pass, params_pass. Qed.

Lemma outputs_moviesW_ne nd ft mode w name :
  name ≠ "outputMovies" ->
  outputs (moviesW nd ft mode w) !! name = outputs w !! name.
Proof.
  intros Hne. unfold moviesW, storeSet, addRelation.
  repeat case_match; cbn; rewrite ?lookup_insert_ne by done; reflexivity.
Qed.

(** The output [name] of the protocol after a call that did not return at
    once. *)
Lemma lookup_outputs_pass w name :
  finished w = false ->
  outputs (world (_checkNewOutput w)) !! name =
  if decide (doSaveAveMic (params w) = true ∧ name = "outputMicrographs") then
    Some (writtenSet w SetOfMicrographs micsFile (micItems (candidates w))
            (streamModeOf (finishedPredicate w)))
  else if decide (doGenerateOutputMovies (params w) = true ∧ name = "outputMovies") then
    Some (writtenSet w SetOfMovies (moviesFile (params w))
            (movieItems (params w) (candidates w))
            (streamModeOf (finishedPredicate w)))
  else outputs w !! name.
Proof.
  intros Hf. rewrite world_pass. unfold passW. rewrite Hf.
  set (nd := candidates w). set (mode := streamModeOf _). set (ft := firstTimeOf w).
  set (w1 := set_finished _ (markW nd w)).
  assert (Hp : params w1 = params w) by (subst w1; by autorewrite with frame).
  assert (Hfiles : files w1 = files w) by (subst w1; by autorewrite with frame).
  assert (Hout : outputs w1 = outputs w) by (subst w1; by autorewrite with frame).
  assert (Hinfo : outputInfo w1 = outputInfo w).
  { subst w1; unfold outputInfo; by autorewrite with frame. }
  assert (Hst : ∀ g, storedItems w1 g = storedItems w g).
  { intros g. unfold storedItems. by rewrite Hfiles. }
  pose proof (moviesFile_ne_micsFile (params w)) as Hne.
  autorewrite with frame.
  unfold micsW. autorewrite with frame. rewrite Hp.
  unfold writtenSet. rewrite outputInfo_moviesW, Hinfo.
  rewrite storedItems_moviesW by (rewrite Hp; congruence). rewrite Hst.
  destruct (doSaveAveMic (params w)).
  - assert (Hins : ∀ s o, outputs (if ft then addRelation RELATION_SOURCE micsFile
                                             (storeSet "outputMicrographs" s o)
                                   else storeSet "outputMicrographs" s o) =
                          <["outputMicrographs" := s]> (outputs o)) by (by destruct ft).
    rewrite Hins. case_decide as Hd.
    + destruct Hd as [_ ->]. by rewrite lookup_insert_eq.
    + rewrite lookup_insert_ne by (intros <-; by apply Hd).
      case_decide as Hd2.
      * destruct Hd2 as [Hg ->]. unfold moviesW, writtenSet. rewrite Hp, Hg, Hinfo, Hst.
        destruct ft; cbn; by rewrite lookup_insert_eq.
      * destruct (decide (name = "outputMovies")) as [->|Hn].
        -- unfold moviesW. rewrite Hp.
           destruct (doGenerateOutputMovies (params w)); [exfalso; by apply Hd2|].
           by rewrite Hout.
        -- by rewrite outputs_moviesW_ne, Hout.
  - rewrite decide_False by (intros [? _]; done). case_decide as Hd2.
    + destruct Hd2 as [Hg ->]. unfold moviesW, writtenSet. rewrite Hp, Hg, Hinfo, Hst.
      destruct ft; cbn; by rewrite lookup_insert_eq.
    + destruct (decide (name = "outputMovies")) as [->|Hn].
      * unfold moviesW. rewrite Hp.
        destruct (doGenerateOutputMovies (params w)); [exfalso; by apply Hd2|].
        by rewrite Hout.
      * by rewrite outputs_moviesW_ne, Hout.
Qed.

Lemma finishedPredicate_spec w :
  finishedPredicate w = true ↔
  streamClosed w = true ∧
  (length (doneFile w) + length (candidates w))%nat = length (listOfMovies w).
Proof.
  unfold finishedPredicate. rewrite andb_true_iff, bool_decide_eq_true. done.
Qed.

Lemma elem_of_candidates w m :
  m ∈ candidates w ↔
  m ∈ listOfMovies w ∧ (objId m ∉ doneFile w) ∧ _isMovieDone w m = true.
Proof.
  unfold candidates, newlyDone. rewrite list_elem_of_filter.
  rewrite Is_true_true. tauto.
Qed.


Lemma storedItems_pass w f :
  finished w = false ->
  storedItems (world (_checkNewOutput w)) f =
  if decide (doSaveAveMic (params w) = true ∧ f = micsFile) then
    storedItems w micsFile ++ micItems (candidates w)
  else if decide (doGenerateOutputMovies (params w) = true ∧ f = moviesFile (params w)) then
    storedItems w (moviesFile (params w)) ++ movieItems (params w) (candidates w)
  else storedItems w f.
Proof.
  intros Hf. unfold storedItems at 1. rewrite lookup_files_pass by done.
  repeat case_decide; reflexivity.
Qed.


(** *** Loading an output set *)

(** C6: [_loadOutputSet] is resume-safe.  It never raises and changes
    nothing on disk; the set it returns is bound to the target file and is
    open for appending; when a file already exists at the target path the
    set holds the items stored there (it is loaded, not recreated), otherwise
    it is empty; its acquisition metadata is that of the input movies. *)
Theorem loadOutputSet_resume_safe (cls : SetClass) (baseName : string) (w : World) :
  ∃ s, _loadOutputSet cls baseName w = MkOut (inr s) w [] ∧
       setClass s = cls ∧ setFileName s = _getPath baseName ∧
       streamState s = STREAM_OPEN ∧
       acquisition (setInfo s) = acquisition (inputMovies w) ∧
       match files w !! _getPath baseName with
       | Some stored => items s = items stored
       | None => items s = []
       end.
Proof.
  exists (loadedSet w cls baseName). rewrite _loadOutputSet_run.
  unfold loadedSet, storedItems, _getPath; cbn.
  repeat split. destruct (files w !! baseName); reflexivity.
Qed.

(** C9: whenever an output set is loaded, whether its file exists already or
    not and whatever metadata the file holds, the returned set carries the
    acquisition of the current input movies and the sampling rate of the
    input multiplied by the binning factor. *)
Theorem loadOutputSet_overwrites_info (cls : SetClass) (baseName : string) (w : World) :
  ∃ s, val (_loadOutputSet cls baseName w) = inr s ∧
       setInfo s =
       {| samplingRate := (samplingRate (inputMovies w) * binFactor (params w))%float;
          acquisition := acquisition (inputMovies w) |}.
Proof.
  exists (loadedSet w cls baseName). rewrite _loadOutputSet_run. split; reflexivity.
Qed.

(** *** The micrograph output *)

(** C10: in a call that does not return at once and saves micrographs, the
    stored micrograph set is the one found on disk followed by one
    micrograph per candidate movie, in order, and each of these carries the
    object identifier and the micrograph name of its movie. *)
Theorem micrographs_keep_movie_identity (w : World) :
  finished w = false -> doSaveAveMic (params w) = true ->
  ∃ s new,
    files (world (_checkNewOutput w)) !! micsFile = Some s ∧
    items s = storedItems w micsFile ++ new ∧
    Forall2 (fun movie it =>
               ∃ mic, it = IMic mic ∧ mic_objId mic = Some (objId movie) ∧
                      mic_micName mic = Some (micName movie))
            (candidates w) new.
Proof.
  intros Hf Hm. rewrite lookup_files_pass by done.
  rewrite decide_True by done.
  eexists _, (micItems (candidates w)). split; [reflexivity|]. split; [reflexivity|].
  unfold micItems. induction (candidates w) as [|m l IH]; constructor; [|exact IH].
  exists (outputMicrograph m). split; [reflexivity|]. apply outputMicrograph_identity.
Qed.

(** *** The finished flag *)


(** C8, as the code has it: [finished] is an attribute that the procedure
    caches.  A call that finds it set returns at once and changes nothing;
    a call that finds it unset recomputes it, and the new value depends only
    on the done list, the known movies, their readiness and the stream
    flag. *)
Theorem finished_recomputed_unless_cached (w1 w2 : World) :
  doneFile w1 = doneFile w2 -> listOfMovies w1 = listOfMovies w2 ->
  streamClosed w1 = streamClosed w2 ->
  (∀ m, movieDone w1 m = movieDone w2 m) ->
  (finished w1 = true -> _checkNewOutput w1 = MkOut (inr tt) w1 []) ∧
  (finished w1 = false -> finished w2 = false ->
   finished (world (_checkNewOutput w1)) = finished (world (_checkNewOutput w2))).
Proof.
  intros Hd Hl Hs Hr. split; [apply pass_finished|].
  intros H1 H2. rewrite !finished_pass by done.
  unfold finishedPredicate, candidates, newlyDone, _isMovieDone.
  rewrite Hd, Hl, Hs.
  assert (filter (fun m => (objId m ∉ doneFile w2) ∧ movieDone w1 m) (listOfMovies w2) =
          filter (fun m => (objId m ∉ doneFile w2) ∧ movieDone w2 m) (listOfMovies w2))
    as -> by (apply list_filter_iff; intros m; by rewrite Hr).
  reflexivity.
Qed.

(** *** The effects of a call *)





(** Every append of a call is for one of its candidates. *)
Lemma append_in_pass w f id :
  EvAppend f id ∈ evs (_checkNewOutput w) ->
  finished w = false ∧ ∃ m, m ∈ candidates w ∧ id = Some (objId m).
Proof.
  rewrite evs_pass. unfold passE. destruct (finished w); [by intros ?%elem_of_nil|].
  intros Hin. split; [done|].
  assert (Hblock : ∀ en name g k its ft mode,
            EvAppend f id ∈ blockE en name g k its ft mode -> id ∈ map item_objId its).
  { intros en name g k its ft mode. unfold blockE, appendEvents.
    destruct en; [|by intros ?%elem_of_nil].
    rewrite !elem_of_app, !list_elem_of_fmap.
    intros [(it & Heq & Hit)|[Hu|Hr]].
    - inversion Heq; subst. eauto.
    - apply list_elem_of_singleton in Hu. discriminate.
    - destruct ft; [apply list_elem_of_singleton in Hr; discriminate|by apply elem_of_nil in Hr]. }
  rewrite !elem_of_app in Hin. destruct Hin as [Hm|[Hb|[Hb|Hu]]].
  - unfold markE in Hm. case_bool_decide.
    + apply list_elem_of_singleton in Hm. discriminate.
    + by apply elem_of_nil in Hm.
  - apply Hblock in Hb. rewrite ids_movieItems, <- list_fmap_compose in Hb.
    apply list_elem_of_fmap in Hb as (m & -> & Hm). eauto.
  - apply Hblock in Hb. rewrite ids_micItems, <- list_fmap_compose in Hb.
    apply list_elem_of_fmap in Hb as (m & -> & Hm). eauto.
  - destruct (finishedPredicate w); [|by apply elem_of_nil in Hu].
    destruct (joinStep w) as [[]|];
      first [by apply elem_of_nil in Hu | apply list_elem_of_singleton in Hu; discriminate].
Qed.

(** *** Invariants of a run *)

Lemma consistent_initial w : initial w -> consistent w.
Proof.
  intros (_ & Hd & Hfs & _) f. rewrite Hfs, lookup_empty. done.
Qed.

Lemma consistent_env w w' : envStep w w' -> consistent w -> consistent w'.
Proof.
  intros (Hp & Hd & Hfs & _) Hc f. specialize (Hc f).
  rewrite Hp, Hd, Hfs. exact Hc.
Qed.

Lemma storedIds_consistent w f :
  consistent w -> writesFile (params w) f ->
  storedIds w f = map Some (doneFile w).
Proof.
  intros Hc Hw. specialize (Hc f). unfold storedIds, storedItems.
  destruct (files w !! f) as [s|].
  - apply Hc.
  - by rewrite Hc.
Qed.

Lemma consistent_pass w : consistent w -> consistent (world (_checkNewOutput w)).
Proof.
  intros Hc. destruct (finished w) eqn:Hf.
  { by rewrite pass_finished. }
  intros f. rewrite params_pass, doneFile_pass, lookup_files_pass by done.
  assert (Hids : ∀ g new, writesFile (params w) g ->
            map item_objId new = map Some (map objId (candidates w)) ->
            map item_objId (storedItems w g ++ new) =
            map Some (doneFile w ++ map objId (candidates w))).
  { intros g new Hw Hnew. rewrite !map_app, Hnew. f_equal.
    by apply storedIds_consistent. }
  repeat case_decide.
  - destruct_and!; subst. split; [by right|].
    apply Hids; [by right|apply ids_micItems].
  - destruct_and!; subst. split; [by left|].
    apply Hids; [by left|apply ids_movieItems].
  - specialize (Hc f). destruct (files w !! f).
    + exfalso. destruct Hc as [[[? ?]|[? ?]] _]; intuition.
    + intros [[? ?]|[? ?]]; exfalso; intuition.
Qed.

Lemma reachable_consistent P w : reachable P w -> consistent w.
Proof.
  induction 1 as [w Hi|w w' _ IH He|w _ IH _].
  - by apply consistent_initial.
  - by eapply consistent_env.
  - by apply consistent_pass.
Qed.



(** *** Ordering of mark and append *)

(** C1, as the code has it: within a call the done list is written first
    and the appends follow, so every append is preceded by the write of its
    identifier; between calls, in every world that a run can reach, every
    identifier in the done list has its artifact in every set the stage
    writes. *)
Theorem mark_then_append_consistent_between_calls :
  (∀ w, markBeforeAppend (evs (_checkNewOutput w))) ∧
  (∀ w f id, reachable anyWorld w -> writesFile (params w) f ->
             id ∈ doneFile w -> Some id ∈ storedIds w f).
Proof.
  split.
  - intros w pre f id post Heq.
    assert (Hin : EvAppend f id ∈ evs (_checkNewOutput w)).
    { rewrite Heq. apply elem_of_app. right. by left. }
    apply append_in_pass in Hin as (Hf & m & Hm & ->).
    exists (map objId (candidates w)), (objId m).
    split; [|split; [done|by apply list_elem_of_fmap_2]].
    rewrite evs_pass in Heq. unfold passE in Heq. rewrite Hf in Heq.
    unfold markE in Heq. rewrite bool_decide_eq_true_2 in Heq.
    2:{ intros Hnil. rewrite Hnil in Hm. by apply elem_of_nil in Hm. }
    destruct pre as [|e pre]; cbn in Heq; inversion Heq; subst. by left.
  - intros w f id Hr Hw Hid.
    rewrite (storedIds_consistent w f) by (by eauto using reachable_consistent).
    by apply list_elem_of_fmap_2.
Qed.

(** *** Candidates *)


(** *** Calling twice *)

Lemma candidates_after_pass w :
  finished w = false -> candidates (world (_checkNewOutput w)) = [].
Proof.
  intros Hf. apply elem_of_nil_inv. intros m Hm.
  apply elem_of_candidates in Hm as (Hl & Hd & Hr).
  rewrite listOfMovies_pass in Hl. rewrite doneFile_pass in Hd by done.
  unfold _isMovieDone in Hr. rewrite movieDone_pass in Hr.
  apply Hd. apply elem_of_app.
  destruct (decide (objId m ∈ doneFile w)) as [|Hn]; [by left|right].
  apply list_elem_of_fmap_2, elem_of_candidates. done.
Qed.

Lemma finishedPredicate_after_pass w :
  finished w = false ->
  finishedPredicate (world (_checkNewOutput w)) = finishedPredicate w.
Proof.
  intros Hf. unfold finishedPredicate.
  rewrite candidates_after_pass, streamClosed_pass, listOfMovies_pass, doneFile_pass by done.
  rewrite length_app, length_map. cbn [length]. by rewrite Nat.add_0_r.
Qed.

(** In a second call right after a first one that did not finish the run,
    each set is written back as it was stored. *)
Lemma writtenSet_again w :
  finished w = false ->
  let w1 := world (_checkNewOutput w) in
  (doSaveAveMic (params w) = true ->
   writtenSet w1 SetOfMicrographs micsFile (micItems (candidates w1))
     (streamModeOf (finishedPredicate w1)) =
   writtenSet w SetOfMicrographs micsFile (micItems (candidates w))
     (streamModeOf (finishedPredicate w))) ∧
  (doGenerateOutputMovies (params w) = true ->
   writtenSet w1 SetOfMovies (moviesFile (params w1)) (movieItems (params w1) (candidates w1))
     (streamModeOf (finishedPredicate w1)) =
   writtenSet w SetOfMovies (moviesFile (params w)) (movieItems (params w) (candidates w))
     (streamModeOf (finishedPredicate w))).
Proof.
  intros Hf w1. subst w1. pose proof (moviesFile_ne_micsFile (params w)) as Hne.
  rewrite candidates_after_pass, finishedPredicate_after_pass, params_pass by done.
  unfold writtenSet. rewrite outputInfo_pass, !storedItems_pass by done.
  split; intros He.
  - rewrite decide_True by done. cbn. by rewrite app_nil_r.
  - rewrite decide_False by (intros [_ ?]; congruence).
    rewrite decide_True by done. cbn. by rewrite app_nil_r.
Qed.

Lemma quiet_without_candidates w :
  candidates w = [] -> forallb addsNothing (evs (_checkNewOutput w)) = true.
Proof.
  intros Hnil. rewrite evs_pass. unfold passE, markE, blockE. rewrite Hnil.
  destruct (finished w); [done|].
  destruct (doGenerateOutputMovies (params w)), (doSaveAveMic (params w)),
    (firstTimeOf w), (finishedPredicate w); try destruct (joinStep w) as [[]|];
    reflexivity.
Qed.

(** C4: two calls in a row, with no new input in between.  The second call
    does not raise, discovers no candidate, leaves the done list, the set
    files and the outputs as the first call left them, and none of its
    effects writes to the done list or appends to a set. *)
Theorem second_pass_changes_nothing (w : World) :
  let w1 := world (_checkNewOutput w) in
  let second := _checkNewOutput w1 in
  val second = inr tt ∧
  discovered w1 = [] ∧
  doneFile (world second) = doneFile w1 ∧
  files (world second) = files w1 ∧
  outputs (world second) = outputs w1 ∧
  forallb addsNothing (evs second) = true.
Proof.
  intros w1 second. subst second.
  assert (Hval : val (_checkNewOutput w1) = inr tt) by (by rewrite _checkNewOutput_run).
  split; [exact Hval|]. unfold discovered.
  destruct (finished w1) eqn:Hf1.
  { rewrite pass_finished by done. cbn. done. }
  assert (Hf : finished w = false).
  { destruct (finished w) eqn:Hf; [|done]. subst w1.
    rewrite pass_finished in Hf1 by done. cbn in Hf1. congruence. }
  assert (Hnil : candidates w1 = []) by (by apply candidates_after_pass).
  destruct (writtenSet_again w Hf) as [Hmic Hmov]. fold w1 in Hmic, Hmov.
  assert (Hp : params w1 = params w) by apply params_pass.
  rewrite Hp in Hmov.
  split; [exact Hnil|]. split; [|split; [|split]].
  - rewrite doneFile_pass, Hnil by done. cbn. by rewrite app_nil_r.
  - apply map_eq. intros f. rewrite (lookup_files_pass w1) by done.
    subst w1. rewrite (lookup_files_pass w f) by done. rewrite Hp.
    repeat case_decide; destruct_and?; f_equal; auto.
  - apply map_eq. intros name. rewrite (lookup_outputs_pass w1) by done.
    subst w1. rewrite (lookup_outputs_pass w name) by done. rewrite Hp.
    repeat case_decide; destruct_and?; f_equal; auto.
  - by apply quiet_without_candidates.
Qed.

(** *** Unlocking the join step *)









End Properties.

(** ** Further properties *)

Section FurtherProperties.

Context `{PU : PathUtils}.

(** *** Validation and frame ranges *)

(** X1: [_validate] reports no error exactly when the two crop dimensions
    are both positive or both not positive, and no more frames are
    discarded for aligning than for summing, at the beginning and at the
    end. *)
Theorem validate_accepts_iff (p : Params) :
  _validate p = [] ↔
  (0 < cropDimX p ↔ 0 < cropDimY p) ∧
  alignFrame0 p ≤ sumFrame0 p ∧ alignFrameN p ≤ sumFrameN p.
Proof.
  unfold _validate. rewrite !Z.gtb_ltb.
  destruct (Z.ltb_spec 0 (cropDimX p)), (Z.ltb_spec 0 (cropDimY p)),
    (Z.leb_spec (cropDimX p) 0), (Z.leb_spec (cropDimY p) 0),
    (Z.ltb_spec (sumFrame0 p) (alignFrame0 p)),
    (Z.ltb_spec (sumFrameN p) (alignFrameN p));
    cbn; split; try discriminate; try lia; intros _; repeat split; lia.
Qed.

(** X2: with parameters that [_validate] accepts, for movies of any length
    the frames used for the sum lie within the frames used for the
    alignment, so the sum range has at most as many frames as the align
    range. *)
Theorem validated_ranges_nested (p : Params) (n : Z) :
  _validate p = [] ->
  let '(firstAlign, lastAlign) := _getFrameRange p n PrefixAlign in
  let '(firstSum, lastSum) := _getFrameRange p n PrefixSum in
  firstAlign ≤ firstSum ∧ lastSum ≤ lastAlign ∧
  framesIn (_getFrameRange p n PrefixSum) ≤ framesIn (_getFrameRange p n PrefixAlign).
Proof.
  intros (_ & H0 & HN)%validate_accepts_iff.
  unfold _getFrameRange, framesIn; cbn. lia.
Qed.

(** *** The output movie *)

(** X3: when the aligned movie is saved, the x and y shifts of the output
    movie are one and the same list of zeros, one per frame of the align
    range [numberOfFrames - alignFrame0 - alignFrameN]; when the parameters
    discard all frames or more, the list is empty and nothing fails. *)
Theorem saved_movie_zero_shifts (p : Params) (movie : Movie) :
  doSaveMovie p = true ->
  ∃ a, alignment (_createOutputMovie p movie) = Some a ∧
       al_first a = 1 + alignFrame0 p ∧
       al_last a = numberOfFrames movie - alignFrameN p ∧
       al_xshifts a = al_yshifts a ∧
       Forall (fun shift => shift = 0) (al_xshifts a) ∧
       Z.of_nat (length (al_xshifts a)) =
         Z.max 0 (numberOfFrames movie - alignFrame0 p - alignFrameN p) ∧
       (numberOfFrames movie ≤ alignFrame0 p + alignFrameN p -> al_xshifts a = []).
Proof.
  intros Hs. unfold _createOutputMovie, _getFrameRange. rewrite Hs. cbn.
  eexists. split; [reflexivity|]. cbn.
  repeat split.
  - apply Forall_replicate. reflexivity.
  - rewrite length_replicate. lia.
  - intros Hle.
    replace (Z.to_nat (numberOfFrames movie - alignFrameN p - (1 + alignFrame0 p) + 1))
      with 0%nat by lia.
    reflexivity.
Qed.

(** X4: the output movie does not depend on an alignment that the input
    movie already carries: it is overwritten, not combined.  When the movie
    is not saved, building the output of an output gives the same movie
    again. *)
Theorem output_movie_overwrites_alignment (p : Params) (movie : Movie) (a : MovieAlignment) :
  _createOutputMovie p (setAlignment a movie) = _createOutputMovie p movie ∧
  (doSaveMovie p = false ->
   _createOutputMovie p (_createOutputMovie p movie) = _createOutputMovie p movie).
Proof.
  unfold _createOutputMovie, _getFrameRange, _getMovieShifts, _getOutputMovieName,
    _getMovieRoot.
  split.
  - destruct (doSaveMovie p); reflexivity.
  - intros ->. reflexivity.
Qed.

(** The output movie keeps the identifier, the micrograph name and the
    number of frames of its movie; its file name is kept unless the aligned
    movie is saved, in which case it is the extra path of the root name
    followed by [_aligned_movie.mrcs]; and it always carries an alignment
    whose region of interest is the four crop parameters, offsets first. *)
Lemma output_movie_fields (p : Params) (movie : Movie) :
  let out := _createOutputMovie p movie in
  objId out = objId movie ∧ micName out = micName movie ∧
  numberOfFrames out = numberOfFrames movie ∧
  fileName out =
    (if doSaveMovie p
     then _getExtraPath (removeBaseExt (fileName movie) +:+ "_aligned_movie.mrcs")
     else fileName movie) ∧
  ∃ a, alignment out = Some a ∧
       al_roi a = [cropOffsetX p; cropOffsetY p; cropDimX p; cropDimY p] ∧
       framesIn (al_first a, al_last a) = framesIn (_getFrameRange p (numberOfFrames movie) PrefixAlign).
Proof.
  unfold _createOutputMovie, _getFrameRange, _getMovieShifts, _getOutputMovieName,
    _getMovieRoot.
  destruct (doSaveMovie p); cbn; repeat split; eexists; repeat split.
Qed.

(** *** Output file names *)

Lemma chars_append (s t : string) :
  Stdlib.Strings.String.list_ascii_of_string (s +:+ t) = Stdlib.Strings.String.list_ascii_of_string s ++ Stdlib.Strings.String.list_ascii_of_string t.
Proof. induction s as [|c s IH]; [done|]. cbn. by rewrite <- IH. Qed.

Lemma chars_inj (s t : string) :
  Stdlib.Strings.String.list_ascii_of_string s = Stdlib.Strings.String.list_ascii_of_string t -> s = t.
Proof.
  intros Heq. rewrite <- (Stdlib.Strings.String.string_of_list_ascii_of_string s),
    <- (Stdlib.Strings.String.string_of_list_ascii_of_string t). by rewrite Heq.
Qed.

Lemma append_same_suffix (s1 s2 t : string) : s1 +:+ t = s2 +:+ t ↔ s1 = s2.
Proof.
  split; [|by intros ->]. intros Heq. apply chars_inj.
  apply (f_equal Stdlib.Strings.String.list_ascii_of_string) in Heq. rewrite !chars_append in Heq.
  by apply app_inj_2 in Heq as [? _].
Qed.

(** X5: the output names of a movie depend on its root name only, and
    faithfully: two movies get the same output movie name, or the same
    output micrograph name, exactly when their root names are equal; and
    an output movie name never equals an output micrograph name, whatever
    the two movies. *)
Theorem output_names_follow_root (m1 m2 : Movie) :
  (_getOutputMovieName m1 = _getOutputMovieName m2 ↔ _getMovieRoot m1 = _getMovieRoot m2) ∧
  (_getOutputMicName m1 = _getOutputMicName m2 ↔ _getMovieRoot m1 = _getMovieRoot m2) ∧
  _getOutputMovieName m1 ≠ _getOutputMicName m2.
Proof.
  unfold _getOutputMovieName, _getOutputMicName.
  split; [apply append_same_suffix|]. split; [apply append_same_suffix|].
  intros Heq. apply (f_equal Stdlib.Strings.String.list_ascii_of_string) in Heq.
  rewrite !chars_append in Heq. apply (f_equal last) in Heq.
  rewrite !last_app in Heq. vm_compute in Heq. discriminate Heq.
Qed.

(** *** What a call leaves alone *)


(** X7: a call changes neither the parameters, the input metadata, the list
    of known movies, the stream flag nor the readiness of movies; of the
    set files it touches only the movie set and the micrograph set, and of
    the outputs only [outputMovies] and [outputMicrographs]. *)
Theorem pass_leaves_rest_alone (w : World) :
  let w' := world (_checkNewOutput w) in
  params w' = params w ∧ inputMovies w' = inputMovies w ∧
  listOfMovies w' = listOfMovies w ∧ streamClosed w' = streamClosed w ∧
  movieDone w' = movieDone w ∧
  (∀ f, f ≠ moviesFile (params w) -> f ≠ micsFile -> files w' !! f = files w !! f) ∧
  (∀ name, name ≠ "outputMovies" -> name ≠ "outputMicrographs" ->
           outputs w' !! name = outputs w !! name).
Proof.
  cbv zeta.
  rewrite params_pass, inputMovies_pass, listOfMovies_pass, streamClosed_pass,
    movieDone_pass.
  do 5 (split; [reflexivity|]).
  destruct (finished w) eqn:Hf.
  { rewrite pass_finished by done. done. }
  split.
  - intros f H1 H2. rewrite lookup_files_pass by done.
    rewrite !decide_False by (intros [_ ?]; done). reflexivity.
  - intros name H1 H2. rewrite lookup_outputs_pass by done.
    rewrite !decide_False by (intros [_ ?]; done). reflexivity.
Qed.

(** *** Growth *)

Lemma relations_moviesW nd ft mode w :
  relations (moviesW nd ft mode w) =
  relations w ++
  (if doGenerateOutputMovies (params w) && ft
   then [{| rel_kind := RELATION_TRANSFORM; rel_parent := "inputMovies";
            rel_child := moviesFile (params w) |}]
   else []).
Proof.
  unfold moviesW, addRelation, storeSet.
  destruct (doGenerateOutputMovies (params w)), ft; cbn; by rewrite ?app_nil_r.
Qed.

Lemma relations_micsW nd ft mode w :
  relations (micsW nd ft mode w) =
  relations w ++
  (if doSaveAveMic (params w) && ft
   then [{| rel_kind := RELATION_SOURCE; rel_parent := "inputMovies";
            rel_child := micsFile |}]
   else []).
Proof.
  unfold micsW, addRelation, storeSet.
  destruct (doSaveAveMic (params w)), ft; cbn; by rewrite ?app_nil_r.
Qed.

(** The relations after a call that did not return at once. *)
Lemma relations_pass w :
  finished w = false ->
  relations (world (_checkNewOutput w)) =
  relations w ++
  (if doGenerateOutputMovies (params w) && firstTimeOf w
   then [{| rel_kind := RELATION_TRANSFORM; rel_parent := "inputMovies";
            rel_child := moviesFile (params w) |}]
   else []) ++
  (if doSaveAveMic (params w) && firstTimeOf w
   then [{| rel_kind := RELATION_SOURCE; rel_parent := "inputMovies";
            rel_child := micsFile |}]
   else []).
Proof.
  intros Hf. rewrite world_pass. unfold passW. rewrite Hf.
  autorewrite with frame. rewrite relations_micsW, relations_moviesW.
  autorewrite with frame. by rewrite <- app_assoc.
Qed.

Lemma grows_pass w f :
  doneFile w `prefix_of` doneFile (world (_checkNewOutput w)) ∧
  storedItems w f `prefix_of` storedItems (world (_checkNewOutput w)) f ∧
  relations w `prefix_of` relations (world (_checkNewOutput w)).
Proof.
  destruct (finished w) eqn:Hf.
  { rewrite pass_finished by done. done. }
  rewrite doneFile_pass, storedItems_pass, relations_pass by done.
  split; [by apply prefix_app_r|]. split; [|by apply prefix_app_r].
  repeat case_decide; destruct_and?; subst; try done; by apply prefix_app_r.
Qed.

(** X8: the done list, the items of every set file and the relations table
    only grow at their end: after any number of calls each of them starts
    with what it held before. *)
Theorem append_only (n : nat) (w : World) (f : string) :
  doneFile w `prefix_of` doneFile (passes n w) ∧
  storedItems w f `prefix_of` storedItems (passes n w) f ∧
  relations w `prefix_of` relations (passes n w).
Proof.
  revert w. induction n as [|n IH]; intros w; [done|].
  cbn [passes]. destruct (grows_pass w f) as (H1 & H2 & H3).
  destruct (IH (world (_checkNewOutput w))) as (I1 & I2 & I3).
  repeat split; etrans; eauto.
Qed.

(** X9: relations are recorded only by calls that find the done list
    empty: once the done list holds an identifier, no later call, however
    many follow, adds a relation. *)
Theorem relations_frozen_after_first_done (n : nat) (w : World) :
  doneFile w ≠ [] -> relations (passes n w) = relations w.
Proof.
  revert w. induction n as [|n IH]; intros w Hd; [done|].
  cbn [passes]. rewrite IH.
  - destruct (finished w) eqn:Hf.
    { by rewrite pass_finished. }
    rewrite relations_pass by done. unfold firstTimeOf.
    rewrite bool_decide_eq_false_2, !andb_false_r by (by destruct (doneFile w)).
    by rewrite !app_nil_r.
  - destruct (grows_pass w "") as ([k Hk] & _). rewrite Hk.
    destruct (doneFile w); [done|discriminate].
Qed.

(** *** Completion *)

Lemma filter_ready w (done : list Z) (l : list Movie) :
  (∀ m, m ∈ l -> _isMovieDone w m = true) ->
  filter (fun m => (objId m ∉ done) ∧ _isMovieDone w m) l =
  filter (fun m => objId m ∉ done) l.
Proof.
  induction l as [|m l IH]; intros Ha; [done|].
  assert (Hm : _isMovieDone w m = true) by (apply Ha; by left).
  rewrite !filter_cons, IH by (intros m' ?; apply Ha; by right).
  destruct (decide (objId m ∉ done)) as [Hn|Hn].
  - rewrite decide_True by (split; [done|by rewrite Hm]). done.
  - rewrite decide_False by (intros [? _]; done). done.
Qed.

Lemma candidates_allReady w :
  allReady w ->
  candidates w = filter (fun m => objId m ∉ doneFile w) (listOfMovies w).
Proof. intros Ha. by apply filter_ready. Qed.

Lemma done_counted w :
  NoDup (map objId (listOfMovies w)) -> NoDup (doneFile w) ->
  (∀ id, id ∈ doneFile w -> id ∈ map objId (listOfMovies w)) ->
  map objId (filter (fun m => ¬ (objId m ∉ doneFile w)) (listOfMovies w)) ≡ₚ doneFile w.
Proof.
  intros Hu Hd Hsub. apply NoDup_Permutation; [|done|].
  - eapply sublist_NoDup; [exact Hu|]. apply (fmap_sublist objId), sublist_filter.
  - intros id. rewrite list_elem_of_fmap. split.
    + intros (m & -> & Hm). apply list_elem_of_filter in Hm as [Hm _].
      by apply dec_stable.
    + intros Hid. pose proof (Hsub id Hid) as Hx.
      apply list_elem_of_fmap in Hx as (m & -> & Hm).
      exists m. split; [done|]. apply list_elem_of_filter. split; [|done].
      by intros Hn.
Qed.

(** X10: completion.  When the stream is closed, every known movie is
    done, the known movies have unique identifiers and the done list holds
    identifiers of known movies, each once, a call that starts with
    [finished] unset finishes the run: it sets [finished], the done list
    becomes a rearrangement of the identifiers of the known movies, and the
    join step is not left waiting. *)
Theorem pass_completes (w : World) :
  finished w = false -> streamClosed w = true -> allReady w ->
  uniqueIds w -> NoDup (doneFile w) ->
  (∀ id, id ∈ doneFile w -> id ∈ map objId (listOfMovies w)) ->
  let w' := world (_checkNewOutput w) in
  finished w' = true ∧
  doneFile w' ≡ₚ map objId (listOfMovies w) ∧
  joinStep w' ≠ Some STATUS_WAITING.
Proof.
  intros Hf Hc Ha Hu Hd Hsub. cbv zeta.
  pose proof (done_counted w Hu Hd Hsub) as Hperm.
  pose proof (filter_app_complement (fun m => objId m ∉ doneFile w) (listOfMovies w))
    as Hsplit.
  assert (Hdone : doneFile (world (_checkNewOutput w)) ≡ₚ map objId (listOfMovies w)).
  { rewrite doneFile_pass, candidates_allReady by done.
    etrans; [|apply (fmap_Permutation objId), Hsplit].
    rewrite fmap_app. etrans; [apply Permutation_app_comm|].
    apply Permutation_app; [done|]. symmetry. exact Hperm. }
  assert (Hfin : finishedPredicate w = true).
  { apply finishedPredicate_spec. split; [done|].
    apply Permutation_length in Hdone.
    rewrite doneFile_pass, length_app, !length_map in Hdone by done.
    exact Hdone. }
  split; [by rewrite finished_pass|]. split; [exact Hdone|].
  rewrite joinStep_pass, Hfin by done.
  destruct (joinStep w) as [[]|]; done.
Qed.

(** *** The stored sets *)

(** X11: in every world that a run can reach, when both outputs are
    produced the movie set and the micrograph set hold the same identifiers
    in the same order, as many as the done list: the i-th micrograph belongs
    to the i-th movie. *)
Theorem movie_and_micrograph_sets_in_step (w : World) :
  reachable anyWorld w ->
  doGenerateOutputMovies (params w) = true -> doSaveAveMic (params w) = true ->
  storedIds w (moviesFile (params w)) = storedIds w micsFile ∧
  length (storedItems w micsFile) = length (doneFile w).
Proof.
  intros Hr Hg Hm. apply reachable_consistent in Hr.
  assert (Hmov : storedIds w (moviesFile (params w)) = map Some (doneFile w))
    by (apply storedIds_consistent; [done|by left]).
  assert (Hmic : storedIds w micsFile = map Some (doneFile w))
    by (apply storedIds_consistent; [done|by right]).
  split; [by rewrite Hmov, Hmic|].
  unfold storedIds in Hmic. apply (f_equal length) in Hmic.
  by rewrite !length_map in Hmic.
Qed.

(** X12: a call that does not return at once stores every set it writes
    with the class of that set, the acquisition of the current input movies
    and the input sampling rate multiplied by the binning factor, whether or
    not it appends anything and whatever the file held before. *)
Theorem pass_refreshes_metadata (w : World) (f : string) :
  finished w = false -> writesFile (params w) f ->
  ∃ s, files (world (_checkNewOutput w)) !! f = Some s ∧
       setFileName s = f ∧
       setClass s = (if decide (f = micsFile) then SetOfMicrographs else SetOfMovies) ∧
       setInfo s =
       {| samplingRate := (samplingRate (inputMovies w) * binFactor (params w))%float;
          acquisition := acquisition (inputMovies w) |}.
Proof.
  intros Hf Hw. rewrite lookup_files_pass by done.
  pose proof (moviesFile_ne_micsFile (params w)) as Hne.
  destruct Hw as [[Hg ->]|[Hm ->]].
  - rewrite decide_False by (intros [_ ?]; done). rewrite decide_True by done.
    eexists. split; [reflexivity|]. cbn. by rewrite decide_False.
  - rewrite decide_True by done.
    eexists. split; [reflexivity|]. cbn. by rewrite decide_True.
Qed.

Lemma micItems_filled nd : Forall filledMicrograph (micItems nd).
Proof.
  unfold micItems. apply Forall_fmap, Forall_true. intros m.
  exists (outputMicrograph m). cbn. eauto.
Qed.

Lemma movieItems_aligned p nd : Forall alignedMovieItem (movieItems p nd).
Proof.
  unfold movieItems. apply Forall_fmap, Forall_true. intros m.
  destruct (output_movie_fields p m) as (_ & _ & _ & _ & a & Ha & Hroi & _).
  exists (_createOutputMovie p m), a. cbn. rewrite Hroi. done.
Qed.

(** X13: in every world that a run can reach, the micrograph set file is a
    set of micrographs whose items are micrographs with identifier, name and
    file name set, and the movie set file is a set of movies whose items
    are movies carrying an alignment with a four-entry region of
    interest. *)
Theorem stored_sets_well_formed (w : World) :
  reachable anyWorld w ->
  (∀ s, files w !! micsFile = Some s ->
        setClass s = SetOfMicrographs ∧ Forall filledMicrograph (items s)) ∧
  (∀ s, files w !! moviesFile (params w) = Some s ->
        setClass s = SetOfMovies ∧ Forall alignedMovieItem (items s)).
Proof.
  induction 1 as [w (_ & _ & Hfs & _)|w w' _ IH (Hp & _ & Hfs & _)|w _ IH _].
  - rewrite Hfs. split; intros s Hs; by rewrite lookup_empty in Hs.
  - by rewrite Hp, Hfs.
  - destruct (finished w) eqn:Hf.
    { by rewrite pass_finished. }
    destruct IH as [IHmic IHmov].
    pose proof (moviesFile_ne_micsFile (params w)) as Hne.
    rewrite params_pass. split; intros s; rewrite lookup_files_pass by done.
    + case_decide as Hd.
      * intros [= <-]. split; [done|]. cbn. apply Forall_app. split.
        -- unfold storedItems. destruct (files w !! micsFile) as [s0|] eqn:E; [|done].
           by apply IHmic.
        -- apply micItems_filled.
      * rewrite decide_False by (intros [_ ?]; done). apply IHmic.
    + rewrite decide_False by (intros [_ ?]; done). case_decide as Hd.
      * intros [= <-]. split; [done|]. cbn. apply Forall_app. split.
        -- unfold storedItems.
           destruct (files w !! moviesFile (params w)) as [s0|] eqn:E; [|done].
           by apply IHmov.
        -- apply movieItems_aligned.
      * apply IHmov.
Qed.

(** X14: in every world that a run can reach, the relations table holds
    nothing but transform edges from the input movies to the movie set,
    present only when movies are produced, and source edges from the input
    movies to the micrograph set, present only when micrographs are
    saved. *)
Theorem relations_well_formed (w : World) (r : Relation) :
  reachable anyWorld w -> r ∈ relations w ->
  (doGenerateOutputMovies (params w) = true ∧
   r = {| rel_kind := RELATION_TRANSFORM; rel_parent := "inputMovies";
          rel_child := moviesFile (params w) |}) ∨
  (doSaveAveMic (params w) = true ∧
   r = {| rel_kind := RELATION_SOURCE; rel_parent := "inputMovies";
          rel_child := micsFile |}).
Proof.
  intros Hr. revert r.
  induction Hr as [w (_ & _ & _ & _ & Hrel)|w w' _ IH (Hp & _ & _ & _ & Hrel & _)|w _ IH _];
    intros r Hin.
  - rewrite Hrel in Hin. by apply elem_of_nil in Hin.
  - rewrite Hp. apply IH. by rewrite <- Hrel.
  - rewrite params_pass. destruct (finished w) eqn:Hf.
    { rewrite pass_finished in Hin by done. by apply IH. }
    rewrite relations_pass in Hin by done.
    rewrite !elem_of_app in Hin. destruct Hin as [Hin|[Hin|Hin]].
    + by apply IH.
    + destruct (doGenerateOutputMovies (params w)); cbn in Hin;
        [|by apply elem_of_nil in Hin].
      destruct (firstTimeOf w); [|by apply elem_of_nil in Hin].
      apply list_elem_of_singleton in Hin. by left.
    + destruct (doSaveAveMic (params w)); cbn in Hin;
        [|by apply elem_of_nil in Hin].
      destruct (firstTimeOf w); [|by apply elem_of_nil in Hin].
      apply list_elem_of_singleton in Hin. by right.
Qed.

End FurtherProperties.

(** ** Sample runs *)

Lemma micrographs_keep_movie_identity_witness :
  finished oneReady = false ∧ doSaveAveMic (params oneReady) = true ∧
  ∃ s new,
    files (world (sampleRun oneReady)) !! micsFile = Some s ∧
    items s = storedItems oneReady micsFile ++ new ∧
    Forall2 (fun movie it =>
               ∃ mic, it = IMic mic ∧ mic_objId mic = Some (objId movie) ∧
                      mic_micName mic = Some (micName movie))
            (candidates oneReady) new.
Proof.
  split; [reflexivity|]. split; [reflexivity|].
  apply (micrographs_keep_movie_identity (PU := examplePaths) oneReady); reflexivity.
Defined.

Lemma closedOne_initial : initial closedOne.
Proof. repeat split. Qed.

Lemma oneReady_initial : initial oneReady.
Proof. repeat split. Qed.

Lemma afterClosedOne_reachable P : P closedOne -> reachable (PU := examplePaths) P afterClosedOne.
Proof.
  intros HP. unfold afterClosedOne. apply reach_pass; [|exact HP].
  apply reach_initial, closedOne_initial.
Qed.

Lemma produce_envStep l closed ready w : envStep w (produce l closed ready w).
Proof. repeat split. by left. Qed.

Lemma restart_envStep w : envStep w (set_finished false w).
Proof. repeat split. by right. Qed.

Lemma lateArrival_reachable : reachable (PU := examplePaths) anyWorld lateArrival.
Proof.
  eapply reach_env; [apply afterClosedOne_reachable; exact I|].
  apply produce_envStep.
Qed.


(** Counterexample to C1 as stated: with one ready movie and nothing
    recorded yet, the call writes identifier 1 to the done list before it
    has appended anything. *)
Lemma append_before_mark_fails :
  evs (sampleRun oneReady) =
    [EvWriteDoneList [1];
     EvAppend "movies_original.sqlite" (Some 1);
     EvUpdateOutputSet "outputMovies" STREAM_OPEN;
     EvDefineRelation {| rel_kind := RELATION_TRANSFORM; rel_parent := "inputMovies";
                         rel_child := "movies_original.sqlite" |};
     EvAppend "micrographs.sqlite" (Some 1);
     EvUpdateOutputSet "outputMicrographs" STREAM_OPEN;
     EvDefineRelation {| rel_kind := RELATION_SOURCE; rel_parent := "inputMovies";
                         rel_child := "micrographs.sqlite" |}] ∧
  ¬ appendBeforeMark (params oneReady) (evs (sampleRun oneReady)).
Proof.
  assert (E : evs (sampleRun oneReady) =
              [] ++ EvWriteDoneList [1] ::
              [EvAppend "movies_original.sqlite" (Some 1);
               EvUpdateOutputSet "outputMovies" STREAM_OPEN;
               EvDefineRelation {| rel_kind := RELATION_TRANSFORM; rel_parent := "inputMovies";
                                   rel_child := "movies_original.sqlite" |};
               EvAppend "micrographs.sqlite" (Some 1);
               EvUpdateOutputSet "outputMicrographs" STREAM_OPEN;
               EvDefineRelation {| rel_kind := RELATION_SOURCE; rel_parent := "inputMovies";
                                   rel_child := "micrographs.sqlite" |}])
    by (vm_compute; reflexivity).
  split; [exact E|]. intros Habm.
  specialize (Habm [] [1] _ 1 micsFile E).
  eapply elem_of_nil, Habm; [by left|].
  right. split; [vm_compute|]; reflexivity.
Qed.



Lemma restart_keeps w :
  doneFile (set_finished false w) = doneFile w ∧
  listOfMovies (set_finished false w) = listOfMovies w ∧
  streamClosed (set_finished false w) = streamClosed w ∧
  movieDone (set_finished false w) = movieDone w ∧
  files (set_finished false w) = files w.
Proof. repeat split. Qed.

(** Counterexample to C8 as stated: two worlds with the same done list, the
    same known movies, readiness and stream flag, the same files, that
    differ only in the cached attribute.  The call recomputes the flag in
    one and skips the computation in the other. *)
Lemma cached_flag_skips_recomputation :
  reachable (PU := examplePaths) anyWorld lateArrival ∧
  reachable (PU := examplePaths) anyWorld (set_finished false lateArrival) ∧
  (doneFile (set_finished false lateArrival) = doneFile lateArrival ∧
   listOfMovies (set_finished false lateArrival) = listOfMovies lateArrival ∧
   streamClosed (set_finished false lateArrival) = streamClosed lateArrival ∧
   movieDone (set_finished false lateArrival) = movieDone lateArrival ∧
   files (set_finished false lateArrival) = files lateArrival) ∧
  finished (world (sampleRun lateArrival)) = true ∧
  finished (world (sampleRun (set_finished false lateArrival))) = false.
Proof.
  split; [apply lateArrival_reachable|]. split.
  { eapply reach_env; [apply lateArrival_reachable|apply restart_envStep]. }
  split; [apply restart_keeps|].
  split; vm_compute; reflexivity.
Qed.

(** C7 on the failing input: one known movie that is not done yet, nothing
    recorded.  Two calls in a row append nothing, and each of them records
    both relations. *)
Lemma relation_recorded_on_every_idle_pass :
  let w1 := world (sampleRun noneReady) in
  let w2 := world (sampleRun w1) in
  let transform := {| rel_kind := RELATION_TRANSFORM; rel_parent := "inputMovies";
                      rel_child := "movies_original.sqlite" |} in
  let source := {| rel_kind := RELATION_SOURCE; rel_parent := "inputMovies";
                   rel_child := "micrographs.sqlite" |} in
  evs (sampleRun noneReady) =
    [EvUpdateOutputSet "outputMovies" STREAM_OPEN; EvDefineRelation transform;
     EvUpdateOutputSet "outputMicrographs" STREAM_OPEN; EvDefineRelation source] ∧
  evs (sampleRun w1) =
    [EvUpdateOutputSet "outputMovies" STREAM_OPEN; EvDefineRelation transform;
     EvUpdateOutputSet "outputMicrographs" STREAM_OPEN; EvDefineRelation source] ∧
  relations w2 = [transform; source; transform; source].
Proof.
  cbv zeta. split; [vm_compute; reflexivity|]. split; vm_compute; reflexivity.
Qed.

(** *** The theorems at sample inputs *)

Lemma oneReady_pass_reachable P :
  P oneReady -> reachable (PU := examplePaths) P (world (sampleRun oneReady)).
Proof.
  intros HP. apply reach_pass; [|exact HP]. apply reach_initial, oneReady_initial.
Qed.

Lemma mark_then_append_consistent_between_calls_witness :
  markBeforeAppend (evs (sampleRun oneReady)) ∧
  reachable (PU := examplePaths) anyWorld (world (sampleRun oneReady)) ∧
  writesFile (params (world (sampleRun oneReady))) micsFile ∧
  1 ∈ doneFile (world (sampleRun oneReady)) ∧
  Some 1 ∈ storedIds (world (sampleRun oneReady)) micsFile.
Proof.
  assert (Hr : reachable (PU := examplePaths) anyWorld (world (sampleRun oneReady)))
    by (apply oneReady_pass_reachable; exact I).
  assert (Hw : writesFile (params (world (sampleRun oneReady))) micsFile)
    by (right; split; [vm_compute|]; reflexivity).
  assert (Hd : 1 ∈ doneFile (world (sampleRun oneReady)))
    by (vm_compute; constructor).
  split; [apply (proj1 (mark_then_append_consistent_between_calls (PU := examplePaths)))|].
  split; [exact Hr|]. split; [exact Hw|]. split; [exact Hd|].
  exact (proj2 (mark_then_append_consistent_between_calls (PU := examplePaths))
           _ micsFile 1 Hr Hw Hd).
Defined.




Lemma finished_recomputed_unless_cached_witness :
  finished oneReady = false ∧ finished (set_joinStep None oneReady) = false ∧
  finished (world (sampleRun oneReady)) =
  finished (world (sampleRun (set_joinStep None oneReady))).
Proof.
  split; [reflexivity|]. split; [reflexivity|].
  apply (finished_recomputed_unless_cached (PU := examplePaths)
           oneReady (set_joinStep None oneReady));
    reflexivity.
Defined.

(** *** The further properties at sample inputs *)

Lemma validated_ranges_nested_witness :
  _validate streamingTestParams = [] ∧
  framesIn (_getFrameRange streamingTestParams 24 PrefixSum) ≤
  framesIn (_getFrameRange streamingTestParams 24 PrefixAlign).
Proof.
  split; [reflexivity|].
  exact (proj2 (proj2 (validated_ranges_nested streamingTestParams 24 eq_refl))).
Defined.

Lemma saved_movie_zero_shifts_witness :
  doSaveMovie savingParams = true ∧
  ∃ a, alignment (_createOutputMovie (PU := examplePaths) savingParams (sampleMovie 1)) = Some a ∧
       al_xshifts a = al_yshifts a ∧
       Z.of_nat (length (al_xshifts a)) = Z.max 0 (8 - 3 - 10).
Proof.
  split; [reflexivity|].
  destruct (saved_movie_zero_shifts (PU := examplePaths) savingParams (sampleMovie 1) eq_refl)
    as (a & Ha & _ & _ & Hxy & _ & Hlen & _).
  exists a. split; [exact Ha|]. split; [exact Hxy|exact Hlen].
Defined.

Lemma output_movie_overwrites_alignment_witness :
  doSaveMovie streamingTestParams = false ∧
  _createOutputMovie (PU := examplePaths) streamingTestParams
    (_createOutputMovie (PU := examplePaths) streamingTestParams (sampleMovie 1)) =
  _createOutputMovie (PU := examplePaths) streamingTestParams (sampleMovie 1).
Proof.
  split; [reflexivity|].
  apply (proj2 (output_movie_overwrites_alignment (PU := examplePaths) streamingTestParams
                  (sampleMovie 1)
                  {| al_first := 0; al_last := 0; al_xshifts := []; al_yshifts := [];
                     al_roi := [] |})).
  reflexivity.
Defined.

Lemma pass_leaves_rest_alone_witness :
  "notes.sqlite" ≠ moviesFile (params oneReady) ∧ "notes.sqlite" ≠ micsFile ∧
  files (world (sampleRun oneReady)) !! "notes.sqlite" = files oneReady !! "notes.sqlite".
Proof.
  assert (H1 : "notes.sqlite" ≠ moviesFile (params oneReady)) by (vm_compute; discriminate).
  assert (H2 : "notes.sqlite" ≠ micsFile) by (vm_compute; discriminate).
  split; [exact H1|]. split; [exact H2|].
  destruct (pass_leaves_rest_alone (PU := examplePaths) oneReady)
    as (_ & _ & _ & _ & _ & Hfiles & _).
  exact (Hfiles "notes.sqlite" H1 H2).
Defined.

Lemma relations_frozen_after_first_done_witness :
  doneFile (world (sampleRun oneReady)) ≠ [] ∧
  relations (passes (PU := examplePaths) 2 (world (sampleRun oneReady))) =
  relations (world (sampleRun oneReady)).
Proof.
  assert (Hd : doneFile (world (sampleRun oneReady)) ≠ []).
  { assert (E : doneFile (world (sampleRun oneReady)) = [1]) by (vm_compute; reflexivity).
    rewrite E. discriminate. }
  split; [exact Hd|].
  exact (relations_frozen_after_first_done (PU := examplePaths) 2 _ Hd).
Defined.

Lemma pass_completes_witness :
  finished closedTwo = false ∧ streamClosed closedTwo = true ∧
  finished (world (sampleRun closedTwo)) = true ∧
  doneFile (world (sampleRun closedTwo)) ≡ₚ map objId (listOfMovies closedTwo).
Proof.
  split; [reflexivity|]. split; [reflexivity|].
  assert (Hu : uniqueIds closedTwo).
  { apply (bool_decide_unpack _). vm_compute. exact I. }
  assert (Ha : allReady closedTwo) by (intros m _; reflexivity).
  assert (Hd : NoDup (doneFile closedTwo)) by constructor.
  assert (Hs : ∀ id, id ∈ doneFile closedTwo -> id ∈ map objId (listOfMovies closedTwo))
    by (intros id Hid; by apply elem_of_nil in Hid).
  destruct (pass_completes (PU := examplePaths) closedTwo eq_refl eq_refl Ha Hu Hd Hs)
    as (Hfin & Hperm & _).
  split; [exact Hfin|exact Hperm].
Defined.

Lemma movie_and_micrograph_sets_in_step_witness :
  reachable (PU := examplePaths) anyWorld (world (sampleRun oneReady)) ∧
  storedIds (world (sampleRun oneReady)) (moviesFile (params (world (sampleRun oneReady)))) =
  storedIds (world (sampleRun oneReady)) micsFile.
Proof.
  assert (Hr : reachable (PU := examplePaths) anyWorld (world (sampleRun oneReady)))
    by (apply oneReady_pass_reachable; exact I).
  split; [exact Hr|].
  apply (movie_and_micrograph_sets_in_step (PU := examplePaths) _ Hr);
    vm_compute; reflexivity.
Defined.

Lemma pass_refreshes_metadata_witness :
  finished oneReady = false ∧ writesFile (params oneReady) micsFile ∧
  ∃ s, files (world (sampleRun oneReady)) !! micsFile = Some s ∧
       setInfo s = {| samplingRate := (1.5 * 2)%float; acquisition := "300kV" |}.
Proof.
  assert (Hw : writesFile (params oneReady) micsFile) by (right; split; reflexivity).
  split; [reflexivity|]. split; [exact Hw|].
  destruct (pass_refreshes_metadata (PU := examplePaths) oneReady micsFile eq_refl Hw)
    as (s & Hs & _ & _ & Hinfo).
  exists s. split; [exact Hs|exact Hinfo].
Defined.

Lemma stored_sets_well_formed_witness :
  reachable (PU := examplePaths) anyWorld (world (sampleRun oneReady)) ∧
  ∀ s, files (world (sampleRun oneReady)) !! micsFile = Some s ->
       setClass s = SetOfMicrographs ∧ Forall filledMicrograph (items s).
Proof.
  assert (Hr : reachable (PU := examplePaths) anyWorld (world (sampleRun oneReady)))
    by (apply oneReady_pass_reachable; exact I).
  split; [exact Hr|].
  exact (proj1 (stored_sets_well_formed (PU := examplePaths) _ Hr)).
Defined.

Lemma relations_well_formed_witness :
  let edge := {| rel_kind := RELATION_SOURCE; rel_parent := "inputMovies";
                 rel_child := micsFile |} in
  reachable (PU := examplePaths) anyWorld (world (sampleRun oneReady)) ∧
  edge ∈ relations (world (sampleRun oneReady)) ∧
  ((doGenerateOutputMovies (params (world (sampleRun oneReady))) = true ∧
    edge = {| rel_kind := RELATION_TRANSFORM; rel_parent := "inputMovies";
              rel_child := moviesFile (params (world (sampleRun oneReady))) |}) ∨
   (doSaveAveMic (params (world (sampleRun oneReady))) = true ∧
    edge = {| rel_kind := RELATION_SOURCE; rel_parent := "inputMovies";
              rel_child := micsFile |})).
Proof.
  cbv zeta.
  assert (Hr : reachable (PU := examplePaths) anyWorld (world (sampleRun oneReady)))
    by (apply oneReady_pass_reachable; exact I).
  assert (Hin : {| rel_kind := RELATION_SOURCE; rel_parent := "inputMovies";
                   rel_child := micsFile |} ∈ relations (world (sampleRun oneReady))).
  { assert (E : relations (world (sampleRun oneReady)) =
                [{| rel_kind := RELATION_TRANSFORM; rel_parent := "inputMovies";
                    rel_child := "movies_original.sqlite" |};
                 {| rel_kind := RELATION_SOURCE; rel_parent := "inputMovies";
                    rel_child := micsFile |}]) by (vm_compute; reflexivity).
    rewrite E. right. left. }
  split; [exact Hr|]. split; [exact Hin|].
  exact (relations_well_formed (PU := examplePaths) _ _ Hr Hin).
Defined.
